(** * E-commerce delivery dashboard: the filter and the derived views

    A shallow embedding of [dashboard/dashboard.py].  The script reads one
    table, narrows it with two sidebar filters and derives a handful of
    aggregate views with pandas method chains.  Here

    - a data frame is a list of rows, in index order; a row is a record with
      one field per column the script reads;
    - every column can hold a missing value (pandas' NaN / NaT), so every
      field is an [option];
    - a float64 cell is an exact rational ([Q]); a float result that pandas
      reports as NaN is [None].  Rounding is not modelled, equality of
      numeric results is [Qeq], lifted to options as [oeq];
    - code that can raise returns an [outcome].

    Pandas itself is not part of the repository; its operations ([isin],
    boolean-mask selection, [groupby] with its defaults [sort=True] and
    [dropna=True], [mean] with [skipna=True], [sort_values], [head],
    [reindex], [corr], [to_period]) are written out below as the library
    documents them. *)

From Stdlib Require Import String Ascii.
From Stdlib Require Import List ZArith QArith Qreduction Qcanon Bool Lia Lqa.
From Stdlib Require Import Permutation Sorting.Sorted OrderedTypeEx Morphisms.
From Stdlib Require DecimalString DecimalNat.
Import ListNotations.

Local Open Scope Q_scope.

(* ------------------------------------------------------------------ *)
(** ** Cells, rows and tables *)

(** [datetime.date]: what [.dt.date] yields and what the date picker
    returns. *)
Record date := mkDate { year : Z; month : Z; day : Z }.

(** A pandas [Timestamp]: a calendar date and the time of day in
    nanoseconds. *)
Record timestamp := mkTs { ts_date : date; ts_nanos : Z }.

Record row := mkRow {
  order_id : option string;
  customer_state : option string;
  order_purchase_timestamp : option timestamp;
  delivery_delay : option Q;
  delivery_status : option string;
  product_category_name : option string;
  product_weight_g : option Q;
  product_length_cm : option Q;
  product_height_cm : option Q;
  product_width_cm : option Q;
  volume : option Q;
  weight_category : option string;
  order_weekday : option string
}.

Definition table := list row.

(* ------------------------------------------------------------------ *)
(** ** Exceptions *)

Inductive exn := IndexError.

Inductive outcome (A : Type) :=
| Returned (a : A)
| Raised (e : exn).
Arguments Returned {A} a.
Arguments Raised {A} e.

Definition bind {A B} (m : outcome A) (k : A -> outcome B) : outcome B :=
  match m with
  | Returned a => k a
  | Raised e => Raised e
  end.

Notation "x <- m ;; k" := (bind m (fun x => k))
  (at level 61, m at next level, right associativity).

(** [t[i]] on a tuple. *)
Definition tuple_get {A} (t : list A) (i : nat) : outcome A :=
  match nth_error t i with
  | Some x => Returned x
  | None => Raised IndexError
  end.

(* ------------------------------------------------------------------ *)
(** ** Equality of numeric results *)

Definition oeq (a b : option Q) : Prop :=
  match a, b with
  | Some x, Some y => x == y
  | None, None => True
  | _, _ => False
  end.

Infix "=?=" := oeq (at level 70, no associativity).

(* ------------------------------------------------------------------ *)
(** ** Dates *)

Definition date_compare (a b : date) : comparison :=
  match Z.compare (year a) (year b) with
  | Eq => match Z.compare (month a) (month b) with
          | Eq => Z.compare (day a) (day b)
          | c => c
          end
  | c => c
  end.

(** [a <= b] and [a >= b] on [datetime.date]. *)
Definition date_leb (a b : date) : bool :=
  match date_compare a b with Gt => false | _ => true end.
Definition date_geb (a b : date) : bool := date_leb b a.

(** The calendar order, stated on its own. *)
Definition date_le (a b : date) : Prop :=
  (year a < year b)%Z \/
  (year a = year b /\ ((month a < month b)%Z \/
                       (month a = month b /\ (day a <= day b)%Z))).

Definition date_lt (a b : date) : Prop := date_le a b /\ a <> b.

(** [series.dt.date]: the calendar date of each timestamp, time of day
    dropped; NaT stays missing. *)
Definition dt_date (t : option timestamp) : option date := option_map ts_date t.

(** Comparison of an object column against one date: a missing cell
    compares false. *)
Definition cell_ge (c : option date) (d : date) : bool :=
  match c with Some x => date_geb x d | None => false end.
Definition cell_le (c : option date) (d : date) : bool :=
  match c with Some x => date_leb x d | None => false end.

(* ------------------------------------------------------------------ *)
(** ** Boolean masks *)

(** [series.isin(values)]. *)
Definition isin (values : list string) (c : option string) : bool :=
  match c with
  | Some s => existsb (String.eqb s) values
  | None => false
  end.

(** [m1 & m2] on two aligned boolean series. *)
Fixpoint mask_and (m1 m2 : list bool) : list bool :=
  match m1, m2 with
  | b1 :: t1, b2 :: t2 => (b1 && b2) :: mask_and t1 t2
  | _, _ => []
  end.

(** [df[mask]]: the rows whose mask entry is true, in index order. *)
Fixpoint select {A} (df : list A) (mask : list bool) : list A :=
  match df, mask with
  | r :: df', b :: mask' => if b then r :: select df' mask' else select df' mask'
  | _, _ => []
  end.

(* ------------------------------------------------------------------ *)
(** ** The filter (lines 51-55) *)

Definition filtered_df (df : table) (selected_states : list string)
           (date_range : list date) : outcome table :=
  let in_states := map (fun r => isin selected_states (customer_state r)) df in
  lo <- tuple_get date_range 0 ;;
  let after_lo := map (fun r => cell_ge (dt_date (order_purchase_timestamp r)) lo) df in
  hi <- tuple_get date_range 1 ;;
  let before_hi := map (fun r => cell_le (dt_date (order_purchase_timestamp r)) hi) df in
  Returned (select df (mask_and (mask_and in_states after_lo) before_hi)).

(** The row predicate the three masks add up to. *)
Definition keeps (selected_states : list string) (lo hi : date) (r : row) : bool :=
  isin selected_states (customer_state r)
  && cell_ge (dt_date (order_purchase_timestamp r)) lo
  && cell_le (dt_date (order_purchase_timestamp r)) hi.

(** Order-preserving embedding of one list in another: nothing added,
    nothing repeated, nothing reordered. *)
Inductive subseq {A} : list A -> list A -> Prop :=
| subseq_nil : subseq [] []
| subseq_skip x l1 l2 : subseq l1 l2 -> subseq l1 (x :: l2)
| subseq_keep x l1 l2 : subseq l1 l2 -> subseq (x :: l1) (x :: l2).

(* ------------------------------------------------------------------ *)
(** ** Series reductions *)

(** The present values of a column, in index order. *)
Fixpoint dropna {A} (col : list (option A)) : list A :=
  match col with
  | [] => []
  | Some x :: t => x :: dropna t
  | None :: t => dropna t
  end.

Definition Qsum (xs : list Q) : Q := fold_right Qplus 0 xs.

Definition Qlen {A} (xs : list A) : Q := inject_Z (Z.of_nat (length xs)).

(** Sum over count; NaN when there is nothing to average. *)
Definition mean_of (xs : list Q) : option Q :=
  match xs with
  | [] => None
  | _ => Some (Qsum xs / Qlen xs)
  end.

(** [series.mean()] on a float column: missing cells are skipped. *)
Definition mean (col : list (option Q)) : option Q := mean_of (dropna col).

(** [series.mean()] on a boolean column: True is 1, False is 0. *)
Definition bool_mean (col : list bool) : option Q :=
  mean_of (map (fun b : bool => if b then 1 else 0) col).

(** [series.count()]: the number of present cells. *)
Definition count {A} (col : list (option A)) : nat := length (dropna col).

(** [series == s]: a missing cell compares false. *)
Definition cell_eqb (c : option string) (s : string) : bool :=
  match c with Some x => String.eqb x s | None => false end.

(** [series > x]: a missing cell compares false. *)
Definition cell_gt (c : option Q) (x : Q) : bool :=
  match c with Some v => negb (Qle_bool v x) | None => false end.

(** [x * k] on a float that may be NaN. *)
Definition scale (x : option Q) (k : Q) : option Q := option_map (fun v => v * k) x.

(* ------------------------------------------------------------------ *)
(** ** Summary metrics (lines 60-74) *)

Definition opt_eqb (a b : option string) : bool :=
  match a, b with
  | Some x, Some y => String.eqb x y
  | None, None => true
  | _, _ => false
  end.

(** [series.unique()]: the distinct cells in order of first appearance; a
    missing cell is one more value. *)
Fixpoint unique (col : list (option string)) : list (option string) :=
  match col with
  | [] => []
  | c :: t => c :: filter (fun d => negb (opt_eqb c d)) (unique t)
  end.

Definition total_orders (df : table) : nat := length (unique (map order_id df)).

Definition total_states (df : table) : nat := length (unique (map customer_state df)).

Definition on_time_percentage (df : table) : option Q :=
  scale (bool_mean (map (fun r => cell_eqb (delivery_status r) "On Time") df)) 100.

Definition avg_delay (df : table) : option Q :=
  mean (map delivery_delay
            (select df (map (fun r => cell_gt (delivery_delay r) 0) df))).

(* ------------------------------------------------------------------ *)
(** ** Grouping *)

(** What a column needs to serve as a [groupby] key: a three-way
    comparison of its values. *)
Class GroupKey (K : Type) := { key_compare : K -> K -> comparison }.

(** Strings compare code unit by code unit, as Python's [str] does. *)
#[export] Instance string_key : GroupKey string := {| key_compare := String.compare |}.

(** A monthly [Period], as the pair (year, month). *)
Definition period : Type := Z * Z.

Definition period_compare (p q : period) : comparison :=
  match Z.compare (fst p) (fst q) with
  | Eq => Z.compare (snd p) (snd q)
  | c => c
  end.

#[export] Instance period_key : GroupKey period := {| key_compare := period_compare |}.

Section Grouping.
Context {K : Type} `{GroupKey K}.

Definition key_eqb (a b : K) : bool :=
  match key_compare a b with Eq => true | _ => false end.

(** Insertion of one key in an ascending list without repetitions. *)
Fixpoint insert_key (k : K) (ks : list K) : list K :=
  match ks with
  | [] => [k]
  | h :: t =>
      match key_compare k h with
      | Lt => k :: ks
      | Eq => ks
      | Gt => h :: insert_key k t
      end
  end.

(** The group labels of a key column: its distinct present values in
    ascending order ([sort=True]); missing keys form no group
    ([dropna=True]). *)
Definition group_keys (col : list (option K)) : list K :=
  fold_right insert_key [] (dropna col).

Definition has_key (key : row -> option K) (k : K) (r : row) : bool :=
  match key r with Some k' => key_eqb k' k | None => false end.

(** [df.groupby(key)]: one group per label, each holding its rows in index
    order. *)
Definition groupby (key : row -> option K) (df : table) : list (K * table) :=
  map (fun k => (k, filter (has_key key k) df)) (group_keys (map key df)).

(** [df.groupby(key)['delivery_delay'].mean()]. *)
Definition group_mean (key : row -> option K) (df : table) : list (K * option Q) :=
  map (fun g => (fst g, mean (map delivery_delay (snd g)))) (groupby key df).

(** The value a series holds at a label, if the label is in its index. *)
Fixpoint lookup {V} (k : K) (s : list (K * V)) : option V :=
  match s with
  | [] => None
  | (k', v) :: t => if key_eqb k' k then Some v else lookup k t
  end.

(** [series.reindex(labels)]: one entry per requested label, in the
    requested order; a label the series lacks gets NaN, a label of the
    series that is not requested is dropped. *)
Definition reindex (labels : list K) (s : list (K * option Q)) : list (K * option Q) :=
  map (fun l => (l, match lookup l s with Some v => v | None => None end)) labels.

(** Strict order of two labels. *)
Definition key_lt (a b : K) : Prop := key_compare a b = Lt.

End Grouping.

(** The comparison of a key type is a strict total order. *)
Class GroupKeyLaws (K : Type) `{GroupKey K} := {
  key_compare_eq : forall a b : K, key_compare a b = Eq <-> a = b;
  key_compare_antisym : forall a b : K, key_compare a b = CompOpp (key_compare b a);
  key_compare_trans : forall a b c : K,
      key_compare a b = Lt -> key_compare b c = Lt -> key_compare a c = Lt
}.

(* ------------------------------------------------------------------ *)
(** ** Delay by state (line 83) *)

Definition state_delay (df : table) : list (string * option Q) :=
  group_mean customer_state df.

(* ------------------------------------------------------------------ *)
(** ** Top 10 delayed categories (lines 108-111) *)

(** The entries of a series whose value is present / missing. *)
Fixpoint notna {K} (s : list (K * option Q)) : list (K * Q) :=
  match s with
  | [] => []
  | (k, Some v) :: t => (k, v) :: notna t
  | (_, None) :: t => notna t
  end.

Definition isna {K} (s : list (K * option Q)) : list (K * option Q) :=
  filter (fun e => match snd e with None => true | Some _ => false end) s.

(** An entry with a value, as it sits in a series. *)
Definition ranked_entry {K} (e : K * Q) : K * option Q := (fst e, Some (snd e)).

(** The sorting routine numpy runs underneath [sort_values]: it puts
    entries in ascending order of value.  The script asks for the default
    [kind], which fixes no algorithm, so the routine is an argument. *)
Definition sorter : Type := list (string * Q) -> list (string * Q).

(** [series.sort_values(ascending=False)]: the present values are reversed,
    sorted ascending and reversed again; entries with a missing value come
    last ([na_position='last']), in index order. *)
Definition sort_values_desc (sort : sorter) (s : list (string * option Q))
  : list (string * option Q) :=
  map ranked_entry (rev (sort (rev (notna s)))) ++ isna s.

(** [series.head(n)]. *)
Definition head {A} (n : nat) (s : list A) : list A := firstn n s.

Definition top_delayed (sort : sorter) (df : table) : list (string * option Q) :=
  head 10 (sort_values_desc sort (group_mean product_category_name df)).

(** One sorting routine to run the view with: straight insertion, which is
    what numpy's default does on short arrays. *)
Fixpoint insert_entry (e : string * Q) (l : list (string * Q)) : list (string * Q) :=
  match l with
  | [] => [e]
  | h :: t => if Qle_bool (snd e) (snd h) then e :: l else h :: insert_entry e t
  end.

Definition insertion_sort : sorter := fold_right insert_entry [].

(** Ascending and descending order of entries by value. *)
Definition asc (a b : string * Q) : Prop := snd a <= snd b.
Definition desc (a b : string * Q) : Prop := snd b <= snd a.

(** What every sorting routine does, whichever algorithm it runs: it
    rearranges the entries and leaves them in ascending order. *)
Definition sorting_routine (sort : sorter) : Prop :=
  forall l, Permutation (sort l) l /\ Sorted asc (sort l).

(** The row has a category. *)
Definition has_category (r : row) : bool :=
  match product_category_name r with Some _ => true | None => false end.

(* ------------------------------------------------------------------ *)
(** ** Correlation matrix (lines 121-123) *)

Definition corr_features : list (row -> option Q) :=
  [delivery_delay; product_weight_g; product_length_cm;
   product_height_cm; product_width_cm; volume].

(** The observations of two columns at the rows where both are present. *)
Fixpoint pairwise_complete (xs ys : list (option Q)) : list (Q * Q) :=
  match xs, ys with
  | Some x :: xs', Some y :: ys' => (x, y) :: pairwise_complete xs' ys'
  | _ :: xs', _ :: ys' => pairwise_complete xs' ys'
  | _, _ => []
  end.

(** Sum of products of deviations from the means. *)
Definition codeviation (obs : list (Q * Q)) : Q :=
  let mx := Qsum (map fst obs) / Qlen obs in
  let my := Qsum (map snd obs) / Qlen obs in
  Qsum (map (fun p => (fst p - mx) * (snd p - my)) obs).

Definition swap (p : Q * Q) : Q * Q := (snd p, fst p).
Definition diag (p : Q * Q) : Q * Q := (fst p, fst p).

(** Sum of squared deviations of the first / second member. *)
Definition ssqdm_x (obs : list (Q * Q)) : Q := codeviation (map diag obs).
Definition ssqdm_y (obs : list (Q * Q)) : Q := ssqdm_x (map swap obs).

(** Pearson's coefficient of two columns on their pairwise-complete
    observations, with [min_periods = 1]: NaN without an observation, NaN
    when the divisor is zero.  The square root is the float one, taken as
    an argument. *)
Definition pearson (sqrt : Q -> Q) (xs ys : list (option Q)) : option Q :=
  let obs := pairwise_complete xs ys in
  if (length obs <? 1)%nat then None
  else
    let divisor := sqrt (ssqdm_x obs * ssqdm_y obs) in
    if Qeq_bool divisor 0 then None
    else Some (codeviation obs / divisor).

(** [filtered_df[corr_features].corr()]. *)
Definition corr_matrix (sqrt : Q -> Q) (df : table) : list (list (option Q)) :=
  map (fun f => map (fun g => pearson sqrt (map f df) (map g df)) corr_features)
      corr_features.

(** The matrix entry in line [i], column [j]. *)
Definition entry (m : list (list (option Q))) (i j : nat) : option Q :=
  nth j (nth i m []) None.

(** The nonzero-variance condition of a column: its present values have a
    nonzero sum of squared deviations. *)
Definition column_obs (col : list (option Q)) : list (Q * Q) :=
  pairwise_complete col col.

(** What the statements ask of the square root: equal arguments give equal
    roots, and the root of a square is the number squared. *)
Definition square_root (sqrt : Q -> Q) : Prop :=
  (forall x y, x == y -> sqrt x == sqrt y) /\
  (forall x, 0 <= x -> sqrt (x * x) == x).

(** The column of a feature, by its position in [corr_features]. *)
Definition feature_column (i : nat) (df : table) : list (option Q) :=
  map (nth i corr_features (fun _ => None)) df.

(** A table of two rows with the six features filled in. *)
Definition measured (delay w l h wd vol : Q) : row :=
  mkRow None None None (Some delay) None None
        (Some w) (Some l) (Some h) (Some wd) (Some vol) None None.

Definition two_parcels : table :=
  [ measured 1 100 10 10 10 1000; measured 3 300 20 10 10 2000 ].

(** A square root on rationals that is exact on squares, to run the view
    with. *)
Definition Qsqrt (q : Q) : Q :=
  let r := Qred q in Z.sqrt (Qnum r) # Pos.sqrt (Qden r).

(* ------------------------------------------------------------------ *)
(** ** Weight categories (lines 134-137) *)

Definition weight_performance (df : table) : list (string * option Q * nat) :=
  map (fun g => (fst g, mean (map delivery_delay (snd g)), count (map order_id (snd g))))
      (groupby weight_category df).

(** The number of different orders among some rows, as the specification
    words the second column of this view. *)
Definition distinct_order_count (rows : table) : nat :=
  length (unique (map Some (dropna (map order_id rows)))).

(* ------------------------------------------------------------------ *)
(** ** Monthly trend (lines 166-169) *)

(** [series.dt.to_period('M')]. *)
Definition to_period_M (t : option timestamp) : option period :=
  option_map (fun t => (year (ts_date t), month (ts_date t))) t.

Definition digit (n : Z) : ascii := ascii_of_nat (48 + Z.to_nat (n mod 10)).

(** [str(period)] at monthly frequency: the year, a dash and the month on
    two digits.  Timestamps lie between the years 1677 and 2262, so the year
    takes four digits. *)
Definition period_str (p : period) : string :=
  let (y, m) := p in
  String (digit (y / 1000)) (String (digit (y / 100)) (String (digit (y / 10))
    (String (digit y) (String "-" (String (digit (m / 10))
      (String (digit m) EmptyString)))))).

Definition monthly_trend (df : table) : list (string * option Q) :=
  map (fun e => (period_str (fst e), snd e))
      (group_mean (fun r => to_period_M (order_purchase_timestamp r)) df).


(** Reading a label back: the numbers its digits stand for. *)
Definition digit_val (c : ascii) : Z := Z.of_nat (nat_of_ascii c) - 48.

Definition read_label (s : string) : option period :=
  match s with
  | String a (String b (String c (String d (String sep (String e (String f EmptyString)))))) =>
      if Ascii.eqb sep "-" then
        Some (digit_val a * 1000 + digit_val b * 100 + digit_val c * 10 + digit_val d,
              digit_val e * 10 + digit_val f)%Z
      else None
  | _ => None
  end.

(** The month a row was purchased in. *)
Definition month_of (r : row) : option period :=
  to_period_M (order_purchase_timestamp r).

(** The range of pandas timestamps, and a month of the calendar. *)
Definition valid_timestamp (t : timestamp) : Prop :=
  (1677 <= year (ts_date t) <= 2262)%Z /\ (1 <= month (ts_date t) <= 12)%Z.

(** Strictly ascending months. *)
Definition period_lt (p q : period) : Prop :=
  (fst p < fst q)%Z \/ (fst p = fst q /\ (snd p < snd q)%Z).

(* ------------------------------------------------------------------ *)
(** ** Weekday profile (lines 182-185) *)

Definition weekdays : list string :=
  ["Monday"; "Tuesday"; "Wednesday"; "Thursday"; "Friday"; "Saturday"; "Sunday"]%string.

Definition weekday_perf (df : table) : list (string * option Q) :=
  reindex weekdays (group_mean order_weekday df).

(** A row whose weekday is one of the seven names. *)
Definition in_week (r : row) : bool :=
  match order_weekday r with
  | Some d => existsb (String.eqb d) weekdays
  | None => false
  end.

(* ------------------------------------------------------------------ *)
(** ** Vocabulary of the statements *)

(** The row carries the label "On Time". *)
Definition is_on_time (r : row) : bool := cell_eqb (delivery_status r) "On Time".

(** The row has a delay and it is positive. *)
Definition is_late (r : row) : bool := cell_gt (delivery_delay r) 0.

(** A positive number of days. *)
Definition is_positive (d : Q) : bool := negb (Qle_bool d 0).

(** The delays present in some rows. *)
Definition delays (rows : table) : list Q := dropna (map delivery_delay rows).

(** The rows a key column puts under one label. *)
Definition rows_with {K} `{GroupKey K} (key : row -> option K) (k : K) (df : table) : table :=
  filter (has_key key k) df.

(** The label agrees with the sign of the delay: no "On Time" row has a
    positive delay. *)
Definition labels_agree (df : table) : Prop :=
  forall r, In r df -> delivery_status r = Some "On Time"%string -> is_late r = false.

(* ------------------------------------------------------------------ *)
(** ** Sample data *)

Definition order (id state : string) (t : timestamp) (delay : option Q)
           (status : string) (category : option string)
           (weight_cat weekday : string) : row :=
  mkRow (Some id) (Some state) (Some t) delay (Some status) category
        None None None None None (Some weight_cat) (Some weekday).

Definition at_noon (y m d : Z) : timestamp := mkTs (mkDate y m d) 43200000000000.

(** Three orders of the kind the dashboard is about, one of them on two
    product rows, one without a category. *)
Definition sample_orders : table :=
  [ order "1" "SP" (at_noon 2017 1 5) (Some 5) "Delayed" (Some "toys") "Light" "Thursday";
    order "2" "SP" (at_noon 2017 3 6) (Some (-2 # 1)) "On Time" (Some "auto") "Light" "Monday";
    order "3" "RJ" (at_noon 2016 12 4) (Some 10) "Delayed" None "Heavy" "Sunday";
    order "3" "RJ" (at_noon 2016 12 4) (Some 10) "Delayed" None "Heavy" "Sunday" ]%string.

(** Two rows of one category, neither with a delay on record. *)
Definition undelivered_orders : table :=
  [ order "7" "SP" (at_noon 2018 5 2) None "Delayed" (Some "toys") "Light" "Wednesday";
    order "8" "MG" (at_noon 2018 5 3) None "Delayed" (Some "toys") "Light" "Thursday" ]%string.

(* ------------------------------------------------------------------ *)
(** ** Sidebar widgets (lines 35-48) *)

(** The options of the state selector: [df['customer_state'].unique()]. *)
Definition state_options (df : table) : list (option string) :=
  unique (map customer_state df).

(** Its preselection: [df['customer_state'].unique()[:5]]. *)
Definition default_states (df : table) : list (option string) :=
  firstn 5 (state_options df).

(** Timestamps compare by instant: the date first, then the time of day. *)
Definition ts_compare (a b : timestamp) : comparison :=
  match date_compare (ts_date a) (ts_date b) with
  | Eq => Z.compare (ts_nanos a) (ts_nanos b)
  | c => c
  end.

Definition ts_leb (a b : timestamp) : bool :=
  match ts_compare a b with Gt => false | _ => true end.

(** The least / greatest of a first timestamp and the ones after it. *)
Fixpoint ts_min_of (t : timestamp) (l : list timestamp) : timestamp :=
  match l with
  | [] => t
  | h :: l' => ts_min_of (if ts_leb t h then t else h) l'
  end.

Fixpoint ts_max_of (t : timestamp) (l : list timestamp) : timestamp :=
  match l with
  | [] => t
  | h :: l' => ts_max_of (if ts_leb h t then t else h) l'
  end.

(** [series.min()] and [series.max()] on a timestamp column: NaT cells are
    skipped, the result is NaT when nothing is left. *)
Definition ts_series_min (col : list (option timestamp)) : option timestamp :=
  match dropna col with
  | [] => None
  | t :: l => Some (ts_min_of t l)
  end.

Definition ts_series_max (col : list (option timestamp)) : option timestamp :=
  match dropna col with
  | [] => None
  | t :: l => Some (ts_max_of t l)
  end.

(** The preset of the date picker:
    [(ts.min().date(), ts.max().date())].  Without a single timestamp in the
    column there is no date to preset; that case is [None]. *)
Definition default_date_range (df : table) : option (list date) :=
  match ts_series_min (map order_purchase_timestamp df),
        ts_series_max (map order_purchase_timestamp df) with
  | Some a, Some b => Some [ts_date a; ts_date b]
  | _, _ => None
  end.

(** The row has a purchase timestamp / a state / an order id. *)
Definition has_timestamp (r : row) : bool :=
  match order_purchase_timestamp r with Some _ => true | None => false end.
Definition has_state (r : row) : bool :=
  match customer_state r with Some _ => true | None => false end.
Definition has_order_id (r : row) : bool :=
  match order_id r with Some _ => true | None => false end.
Definition has_weight_category (r : row) : bool :=
  match weight_category r with Some _ => true | None => false end.
Definition has_status (r : row) : bool :=
  match delivery_status r with Some _ => true | None => false end.

(* ------------------------------------------------------------------ *)
(** ** Status distribution (line 93) *)

(** The number of cells of a column equal to a given cell. *)
Definition occurrences (c : option string) (col : list (option string)) : nat :=
  length (filter (opt_eqb c) col).

(** The routine underneath [sort_values] again, this time on integer
    counts. *)
Definition count_sorter : Type := list (string * nat) -> list (string * nat).

Definition count_asc (a b : string * nat) : Prop := (snd a <= snd b)%nat.
Definition count_desc (a b : string * nat) : Prop := (snd b <= snd a)%nat.

Definition count_sorting_routine (sort : count_sorter) : Prop :=
  forall l, Permutation (sort l) l /\ Sorted count_asc (sort l).

(** [series.value_counts()]: the present values in order of first
    appearance, each with the number of its cells ([dropna=True]), then put
    in descending order of count ([sort=True]). *)
Definition value_counts (sort : count_sorter) (col : list (option string))
  : list (string * nat) :=
  let tally := map (fun s => (s, occurrences (Some s) col)) (dropna (unique col)) in
  rev (sort (rev tally)).

Definition status_dist (sort : count_sorter) (df : table) : list (string * nat) :=
  value_counts sort (map delivery_status df).

(** Straight insertion on counts. *)
Fixpoint insert_count (e : string * nat) (l : list (string * nat)) : list (string * nat) :=
  match l with
  | [] => [e]
  | h :: t => if (snd e <=? snd h)%nat then e :: l else h :: insert_count e t
  end.

Definition insertion_sort_counts : count_sorter := fold_right insert_count [].

(* ------------------------------------------------------------------ *)
(** ** Vocabulary of the further statements *)

(** The number of rows a predicate holds of. *)
Definition rows_where (p : row -> bool) (df : table) : nat := length (filter p df).

(** Two series with the same labels in the same order and equal values. *)
Definition same_series {K} (s s' : list (K * option Q)) : Prop :=
  Forall2 (fun a b => fst a = fst b /\ snd a =?= snd b) s s'.

(** The month of a date. *)
Definition month_of_date (d : date) : period := (year d, month d).

(** Months in calendar order, equal months included. *)
Definition period_le (p q : period) : Prop := period_lt p q \/ p = q.

(** One more batch of orders, in seven states. *)
Definition wide_orders : table :=
  [ order "a" "SP" (at_noon 2018 1 3) (Some 2) "Delayed" (Some "toys") "Light" "Wednesday";
    order "b" "RJ" (at_noon 2018 1 9) (Some (-1 # 1)) "On Time" (Some "auto") "Light" "Tuesday";
    order "c" "MG" (at_noon 2018 2 1) (Some 4) "Delayed" (Some "toys") "Heavy" "Thursday";
    order "d" "SP" (at_noon 2018 2 2) None "On Time" (Some "garden") "Light" "Friday";
    order "e" "BA" (at_noon 2018 2 7) (Some 0) "On Time" (Some "auto") "Medium" "Wednesday";
    order "f" "PR" (at_noon 2018 3 1) (Some 1) "Delayed" None "Medium" "Thursday";
    order "g" "SC" (at_noon 2018 3 5) (Some (-3 # 1)) "On Time" (Some "toys") "Heavy" "Monday";
    order "h" "GO" (at_noon 2018 3 9) (Some 6) "Delayed" (Some "pets") "Light" "Friday" ]%string.

(* ------------------------------------------------------------------ *)
(** ** The label of the order count (line 62) *)

Definition comma : ascii := ","%char.

Definition no_comma (c : ascii) : bool := negb (Ascii.eqb c comma).

(** A comma after every third character, as long as more follow. *)
Fixpoint group3 (l : list ascii) : list ascii :=
  match l with
  | a :: b :: c :: ((_ :: _) as rest) => a :: b :: c :: comma :: group3 rest
  | _ => l
  end.

(** The decimal digits of a number, most significant first. *)
Definition decimal (n : nat) : list ascii :=
  list_ascii_of_string (DecimalString.NilEmpty.string_of_uint (Nat.to_uint n)).

(** [f"{n:,}"]: the digits of [n], in groups of three counted from the
    right, the groups separated by commas. *)
Definition format_thousands (n : nat) : string :=
  string_of_list_ascii (rev (group3 (rev (decimal n)))).

Definition total_orders_label (df : table) : string :=
  format_thousands (total_orders df).

(** Reading such a label: the commas are dropped and the digits read as a
    number. *)
Definition read_thousands (s : string) : option nat :=
  option_map Nat.of_uint
    (DecimalString.NilEmpty.uint_of_string
       (string_of_list_ascii
          (filter no_comma (list_ascii_of_string s)))).

(* ------------------------------------------------------------------ *)
(** ** The filter on any selection *)

(** [series.isin(values)] when [values] is what the state selector hands
    over: a list of its options, among which the missing state can be.  A
    missing cell is matched by a missing value in the list. *)
Definition isin_any (values : list (option string)) (c : option string) : bool :=
  existsb (opt_eqb c) values.

(** Lines 51-55 with such a selection. *)
Definition filtered_df_any (df : table) (selected_states : list (option string))
           (date_range : list date) : outcome table :=
  let in_states := map (fun r => isin_any selected_states (customer_state r)) df in
  lo <- tuple_get date_range 0 ;;
  let after_lo := map (fun r => cell_ge (dt_date (order_purchase_timestamp r)) lo) df in
  hi <- tuple_get date_range 1 ;;
  let before_hi := map (fun r => cell_le (dt_date (order_purchase_timestamp r)) hi) df in
  Returned (select df (mask_and (mask_and in_states after_lo) before_hi)).

Definition keeps_any (selected_states : list (option string)) (lo hi : date) (r : row) : bool :=
  isin_any selected_states (customer_state r)
  && cell_ge (dt_date (order_purchase_timestamp r)) lo
  && cell_le (dt_date (order_purchase_timestamp r)) hi.

(* ------------------------------------------------------------------ *)
(** ** What a mean and a coefficient are *)

(** [m] is the mean of [xs]: NaN for no value at all, otherwise the number
    that, taken as many times as there are values, gives their sum. *)
Definition is_mean_of (xs : list Q) (m : option Q) : Prop :=
  match m with
  | None => xs = []
  | Some v => xs <> [] /\ v * Qlen xs == Qsum xs
  end.

(** [a == b] on two floats: NaN equals nothing, itself included. *)
Definition float_eqb (a b : option Q) : bool :=
  match a, b with
  | Some x, Some y => Qeq_bool x y
  | _, _ => false
  end.

(** The feature in line or column [i] of the matrix. *)
Definition feature (i : nat) : row -> option Q := nth i corr_features (fun _ => None).

(** The pairs of values of two features over the rows that have both. *)
Fixpoint joint_obs (f g : row -> option Q) (df : table) : list (Q * Q) :=
  match df with
  | [] => []
  | r :: df' =>
      match f r, g r with
      | Some x, Some y => (x, y) :: joint_obs f g df'
      | _, _ => joint_obs f g df'
      end
  end.

(** The sums of Pearson's formula over a list of pairs: squared deviations
    of the first members, of the second members, and products of the two
    deviations, each deviation taken from the mean of its member. *)
Definition sum_xx (obs : list (Q * Q)) : Q :=
  let mx := Qsum (map fst obs) / Qlen obs in
  Qsum (map (fun p => (fst p - mx) * (fst p - mx)) obs).

Definition sum_yy (obs : list (Q * Q)) : Q :=
  let my := Qsum (map snd obs) / Qlen obs in
  Qsum (map (fun p => (snd p - my) * (snd p - my)) obs).

Definition sum_xy (obs : list (Q * Q)) : Q :=
  let mx := Qsum (map fst obs) / Qlen obs in
  let my := Qsum (map snd obs) / Qlen obs in
  Qsum (map (fun p => (fst p - mx) * (snd p - my)) obs).

(** The root of a positive number is positive. *)
Definition positive_root (sqrt : Q -> Q) : Prop := forall x, 0 < x -> 0 < sqrt x.

(* ------------------------------------------------------------------ *)
(** ** More sample data *)

(** A late order and an order labelled "On Time" although it came five days
    late. *)
Definition mislabelled_orders : table :=
  [ order "10" "SP" (at_noon 2018 6 1) (Some 3) "Delayed" (Some "toys") "Light" "Friday";
    order "11" "SP" (at_noon 2018 6 4) (Some 5) "On Time" (Some "toys") "Light" "Monday" ]%string.

(** Orders of two Mondays and a Sunday, one with a weekday that is no day of
    the week and one without a weekday. *)
Definition odd_weekday_orders : table :=
  [ order "20" "SP" (at_noon 2018 7 2) (Some 2) "Delayed" (Some "toys") "Light" "Monday";
    order "21" "SP" (at_noon 2018 7 9) (Some 4) "Delayed" (Some "toys") "Light" "Monday";
    order "22" "RJ" (at_noon 2018 7 8) None "Delayed" (Some "auto") "Light" "Sunday";
    order "23" "RJ" (at_noon 2018 7 3) (Some 100) "Delayed" (Some "auto") "Light" "Funday";
    mkRow (Some "24") (Some "RJ") (Some (at_noon 2018 7 4)) (Some 50) (Some "Delayed")
          (Some "auto") None None None None None (Some "Light") None ]%string.

(** Four parcels: the last one has no delay on record; height, width and
    volume are the same for all. *)
Definition patchy_parcels : table :=
  [ mkRow None None None (Some 0) None None (Some 0) (Some 0) (Some 10) (Some 10) (Some 10) None None;
    mkRow None None None (Some 0) None None (Some 0) (Some 2) (Some 10) (Some 10) (Some 10) None None;
    mkRow None None None (Some 2) None None (Some 2) (Some 0) (Some 10) (Some 10) (Some 10) None None;
    mkRow None None None None None None (Some 2) (Some 2) (Some 10) (Some 10) (Some 10) None None ].

(** Orders of two states and one order without a state. *)
Definition stateless_orders : table :=
  [ order "30" "SP" (at_noon 2018 8 1) (Some 1) "Delayed" (Some "toys") "Light" "Wednesday";
    order "31" "RJ" (at_noon 2018 8 2) (Some 2) "Delayed" (Some "toys") "Light" "Thursday";
    mkRow (Some "32") None (Some (at_noon 2018 8 3)) (Some 3) (Some "Delayed")
          (Some "toys") None None None None None (Some "Light") (Some "Friday") ]%string.

(* ------------------------------------------------------------------ *)
(** ** Facts about masks and dates *)

Lemma mask_and_map {A} (p q : A -> bool) (l : list A) :
  mask_and (map p l) (map q l) = map (fun x => p x && q x) l.
Proof.
  induction l as [|x l IH]; simpl; [reflexivity|]. now rewrite IH.
Qed.

Lemma select_map {A} (p : A -> bool) (l : list A) :
  select l (map p l) = filter p l.
Proof.
  induction l as [|x l IH]; simpl; [reflexivity|].
  destruct (p x); now rewrite IH.
Qed.

Lemma filter_subseq {A} (p : A -> bool) (l : list A) : subseq (filter p l) l.
Proof.
  induction l as [|x l IH]; simpl.
  - constructor.
  - destruct (p x); now constructor.
Qed.

Lemma subseq_length {A} (l1 l2 : list A) :
  subseq l1 l2 -> (length l1 <= length l2)%nat.
Proof. induction 1; simpl; lia. Qed.

Lemma date_leb_le (a b : date) : date_leb a b = true <-> date_le a b.
Proof.
  unfold date_leb, date_compare, date_le.
  destruct (Z.compare_spec (year a) (year b));
    destruct (Z.compare_spec (month a) (month b));
    destruct (Z.compare_spec (day a) (day b));
    split; intros; try discriminate; try reflexivity; lia.
Qed.

Lemma isin_In (values : list string) (c : option string) :
  isin values c = true <-> exists s, c = Some s /\ In s values.
Proof.
  destruct c as [s|]; simpl.
  - rewrite existsb_exists. split.
    + intros (x & Hx & He). apply String.eqb_eq in He. subst. eauto.
    + intros (x & Hx & Hi). injection Hx as <-. exists s. split; [assumption|].
      apply String.eqb_refl.
  - split; [discriminate|]. intros (s & Hs & _). discriminate.
Qed.

Lemma filtered_df_eq (df : table) (R : list string) (lo hi : date) (rest : list date) :
  filtered_df df R (lo :: hi :: rest) = Returned (filter (keeps R lo hi) df).
Proof.
  unfold filtered_df. simpl.
  rewrite !mask_and_map, select_map. reflexivity.
Qed.

Lemma keeps_spec (R : list string) (lo hi : date) (r : row) :
  keeps R lo hi r = true <->
  (exists s, customer_state r = Some s /\ In s R) /\
  (exists t, order_purchase_timestamp r = Some t /\
             date_le lo (ts_date t) /\ date_le (ts_date t) hi).
Proof.
  unfold keeps. rewrite !andb_true_iff, isin_In.
  destruct (order_purchase_timestamp r) as [t|]; simpl.
  - unfold date_geb. rewrite !date_leb_le. split.
    + intros [[H1 H2] H3]. split; [assumption|]. exists t. auto.
    + intros [H1 (t' & Ht & H2 & H3)]. injection Ht as <-. auto.
  - split.
    + intros [[_ H] _]. discriminate.
    + intros [_ (t & Ht & _)]. discriminate.
Qed.

(* ------------------------------------------------------------------ *)
(** ** The filter: results *)

(** C1.  For a range with [start <= end] the filter returns a table [out]
    that is embedded in the input in order (no row added, repeated or
    moved), holds exactly the input rows whose state is one of the selected
    regions and whose purchase date (time of day dropped) lies in
    [[start, end]], both ends included, and has at most as many rows as the
    input. *)
Theorem filter_narrowing (df : table) (R : list string) (lo hi : date)
        (Hrange : date_le lo hi) :
  exists out,
    filtered_df df R [lo; hi] = Returned out /\
    subseq out df /\
    (forall r, In r out <->
       In r df /\
       (exists s, customer_state r = Some s /\ In s R) /\
       (exists t, order_purchase_timestamp r = Some t /\
                  date_le lo (ts_date t) /\ date_le (ts_date t) hi)) /\
    (length out <= length df)%nat.
Proof.
  exists (filter (keeps R lo hi) df).
  split; [apply filtered_df_eq|].
  split; [apply filter_subseq|].
  split.
  - intro r. rewrite filter_In, keeps_spec. tauto.
  - apply subseq_length, filter_subseq.
Qed.

(** A range whose start lies after its end selects nothing. *)
Lemma keeps_reversed (R : list string) (lo hi : date) (r : row) :
  date_lt hi lo -> keeps R lo hi r = false.
Proof.
  intros [Hle Hne].
  destruct (keeps R lo hi r) eqn:E; [|reflexivity].
  apply keeps_spec in E. destruct E as [_ (t & _ & H1 & H2)].
  exfalso. apply Hne.
  destruct lo as [y1 m1 d1], hi as [y2 m2 d2], (ts_date t) as [y3 m3 d3].
  unfold date_le in *; simpl in *.
  assert (y2 = y1 /\ m2 = m1 /\ d2 = d1) as (-> & -> & ->) by lia.
  reflexivity.
Qed.

Lemma filter_none {A} (p : A -> bool) (l : list A) :
  (forall x, p x = false) -> filter p l = [].
Proof.
  intro Hp. induction l as [|x l IH]; simpl; [reflexivity|].
  now rewrite Hp.
Qed.

Lemma filter_implied_in {A} (p q : A -> bool) (l : list A) :
  (forall x, In x l -> p x = true -> q x = true) ->
  filter p (filter q l) = filter p l.
Proof.
  induction l as [|x l IH]; intro Hpq; simpl; [reflexivity|].
  assert (IH' : filter p (filter q l) = filter p l)
    by (apply IH; intros y Hy; apply Hpq; now right).
  destruct (q x) eqn:Eq; simpl.
  - destruct (p x); now rewrite IH'.
  - destruct (p x) eqn:Ep; [|exact IH'].
    apply Hpq in Ep; [congruence | now left].
Qed.

Lemma filter_implied {A} (p q : A -> bool) (l : list A) :
  (forall x, p x = true -> q x = true) -> filter p (filter q l) = filter p l.
Proof. intro Hpq. apply filter_implied_in. auto. Qed.

(** C2, as the script behaves.  With the start of the range strictly after
    its end the filter raises nothing: it returns the table without rows. *)
Theorem filter_reversed_range_empty (df : table) (R : list string) (lo hi : date)
        (Hrev : date_lt hi lo) :
  filtered_df df R [lo; hi] = Returned [].
Proof.
  rewrite filtered_df_eq. f_equal.
  apply filter_none. intro r. now apply keeps_reversed.
Qed.

(** C2 fails on the script: on the sample orders, with the range running
    from 1 February 2017 back to 1 January 2017, the filter raises no
    exception and hands back an empty table. *)
Lemma filter_reversed_range_no_error :
  date_lt (mkDate 2017 1 1) (mkDate 2017 2 1) /\
  filtered_df sample_orders ["SP"; "RJ"]%string [mkDate 2017 2 1; mkDate 2017 1 1]
    = Returned [] /\
  ~ (exists e, filtered_df sample_orders ["SP"; "RJ"]%string
                 [mkDate 2017 2 1; mkDate 2017 1 1] = Raised e).
Proof.
  split; [|split].
  - split; [unfold date_le; simpl; lia | discriminate].
  - reflexivity.
  - intros [e He]. discriminate He.
Qed.

(** Witness of C1: the sample orders, both states, January 2017. *)
Lemma filter_narrowing_witness :
  date_le (mkDate 2017 1 1) (mkDate 2017 1 31) /\
  exists out,
    filtered_df sample_orders ["SP"; "RJ"]%string [mkDate 2017 1 1; mkDate 2017 1 31]
      = Returned out /\
    subseq out sample_orders /\
    (forall r, In r out <->
       In r sample_orders /\
       (exists s, customer_state r = Some s /\ In s ["SP"; "RJ"]%string) /\
       (exists t, order_purchase_timestamp r = Some t /\
                  date_le (mkDate 2017 1 1) (ts_date t) /\
                  date_le (ts_date t) (mkDate 2017 1 31))) /\
    (length out <= length sample_orders)%nat.
Proof.
  assert (H : date_le (mkDate 2017 1 1) (mkDate 2017 1 31))
    by (unfold date_le; simpl; lia).
  split; [exact H|].
  exact (filter_narrowing sample_orders ["SP"; "RJ"]%string _ _ H).
Defined.

(** Witness of C2's amended statement: the sample orders, February back to
    January. *)
Lemma filter_reversed_range_empty_witness :
  date_lt (mkDate 2017 1 1) (mkDate 2017 2 1) /\
  filtered_df sample_orders ["SP"]%string [mkDate 2017 2 1; mkDate 2017 1 1]
    = Returned [].
Proof.
  assert (H : date_lt (mkDate 2017 1 1) (mkDate 2017 2 1))
    by (split; [unfold date_le; simpl; lia | discriminate]).
  split; [exact H|].
  exact (filter_reversed_range_empty sample_orders ["SP"]%string _ _ H).
Defined.

(* ------------------------------------------------------------------ *)
(** ** Sums, counts and means *)

#[export] Instance oeq_equiv : Equivalence oeq.
Proof.
  split.
  - intros [x|]; simpl; [reflexivity | exact I].
  - intros [x|] [y|]; simpl; try tauto. intro E. now symmetry.
  - intros [x|] [y|] [z|]; simpl; try tauto. intros E1 E2. now rewrite E1.
Qed.

Lemma Qlen_cons {A} (x : A) (l : list A) : Qlen (x :: l) == 1 + Qlen l.
Proof.
  unfold Qlen. simpl length. rewrite Nat2Z.inj_succ, <- Z.add_1_l.
  now rewrite inject_Z_plus.
Qed.

Lemma Qlen_nonneg {A} (l : list A) : 0 <= Qlen l.
Proof.
  unfold Qlen. change 0 with (inject_Z 0). rewrite <- Zle_Qle. lia.
Qed.

Lemma Qlen_pos {A} (x : A) (l : list A) : 0 < Qlen (x :: l).
Proof.
  rewrite Qlen_cons. pose proof (Qlen_nonneg l). lra.
Qed.

Lemma Qlen_map {A B} (f : A -> B) (l : list A) : Qlen (map f l) = Qlen l.
Proof. unfold Qlen. now rewrite length_map. Qed.

(** Summing the 0/1 values of a boolean column counts its true entries. *)
Lemma Qsum_indicator {A} (p : A -> bool) (l : list A) :
  Qsum (map (fun b : bool => if b then 1 else 0) (map p l)) == Qlen (filter p l).
Proof.
  induction l as [|x l IH]; simpl.
  - reflexivity.
  - destruct (p x).
    + rewrite Qlen_cons, IH. reflexivity.
    + rewrite IH. lra.
Qed.

Lemma Qsum_pos (x : Q) (l : list Q) :
  (forall y, In y (x :: l) -> 0 < y) -> 0 < Qsum (x :: l).
Proof.
  revert x. induction l as [|z l IH]; intros x Hall; simpl.
  - assert (0 < x) by (apply Hall; now left). lra.
  - assert (0 < x) by (apply Hall; now left).
    assert (0 < Qsum (z :: l)) by (apply IH; intros y Hy; apply Hall; now right).
    simpl in *. lra.
Qed.

Lemma mean_of_None (xs : list Q) : mean_of xs = None <-> xs = [].
Proof. destruct xs; simpl; split; intros; congruence. Qed.

Lemma dropna_In {A} (x : A) (col : list (option A)) :
  In x (dropna col) <-> In (Some x) col.
Proof.
  induction col as [|[y|] col IH]; simpl.
  - tauto.
  - rewrite IH. split; intros [E|E]; auto; left; congruence.
  - rewrite IH. split; [auto|]. intros [E|E]; [discriminate|assumption].
Qed.

Lemma cell_gt_spec (c : option Q) (x : Q) :
  cell_gt c x = true <-> exists v, c = Some v /\ x < v.
Proof.
  destruct c as [v|]; simpl.
  - rewrite negb_true_iff. split.
    + intro E. exists v. split; [reflexivity|].
      apply Qnot_le_lt. intro Hle. apply Qle_bool_iff in Hle. congruence.
    + intros (w & Hw & Hlt). injection Hw as <-.
      destruct (Qle_bool v x) eqn:E; [|reflexivity].
      apply Qle_bool_iff in E. lra.
  - split; [discriminate|]. intros (v & Hv & _). discriminate.
Qed.

Lemma cell_eqb_spec (c : option string) (s : string) :
  cell_eqb c s = true <-> c = Some s.
Proof.
  destruct c as [x|]; simpl.
  - rewrite String.eqb_eq. split; congruence.
  - split; discriminate.
Qed.

(* ------------------------------------------------------------------ *)
(** ** On-time percentage *)

(** C3, as the script behaves.  On a table with rows the on-time percentage
    is the number of rows labelled "On Time" over the number of rows, times
    100; on the table without rows it is NaN, not 0.  No case raises. *)
Theorem on_time_percentage_value (df : table) :
  on_time_percentage df =?=
  match df with
  | [] => None
  | _ => Some (Qlen (filter is_on_time df) / Qlen df * 100)
  end.
Proof.
  unfold on_time_percentage, bool_mean.
  destruct df as [|r df]; [exact I|].
  pose proof (Qsum_indicator is_on_time (r :: df)) as Hs.
  unfold is_on_time in *.
  set (col := map _ (map _ (r :: df))) in *.
  assert (Hl : Qlen col = Qlen (r :: df)) by (unfold col; now rewrite !Qlen_map).
  destruct col as [|b col'] eqn:Ec; [discriminate|].
  simpl. rewrite Hs, Hl. reflexivity.
Qed.

(** C3 fails on the script: for the table without rows the on-time
    percentage is NaN, which is not the number 0. *)
Lemma on_time_percentage_empty_nan :
  on_time_percentage [] = None /\ ~ (on_time_percentage [] =?= Some 0).
Proof. split; [reflexivity | intro H; exact H]. Qed.

(* ------------------------------------------------------------------ *)
(** ** Group keys *)

#[export] Instance string_key_laws : GroupKeyLaws string.
Proof.
  split; simpl.
  - exact String_as_OT.cmp_eq.
  - exact String_as_OT.cmp_antisym.
  - intros a b c Hab Hbc.
    apply String_as_OT.cmp_lt in Hab, Hbc. apply String_as_OT.cmp_lt.
    exact (String_as_OT.lt_trans _ _ _ Hab Hbc).
Qed.

Lemma period_compare_Lt (p q : period) :
  period_compare p q = Lt <-> period_lt p q.
Proof.
  unfold period_compare, period_lt.
  destruct (Z.compare_spec (fst p) (fst q));
    destruct (Z.compare_spec (snd p) (snd q));
    split; intros; try discriminate; try reflexivity; lia.
Qed.

#[export] Instance period_key_laws : GroupKeyLaws period.
Proof.
  split; simpl.
  - intros [y1 m1] [y2 m2]. unfold period_compare; simpl.
    destruct (Z.compare_spec y1 y2); destruct (Z.compare_spec m1 m2);
      split; intro E; try discriminate; try congruence;
      injection E as ? ?; lia.
  - intros [y1 m1] [y2 m2]. unfold period_compare; simpl.
    rewrite (Z.compare_antisym y1 y2), (Z.compare_antisym m1 m2).
    destruct (y1 ?= y2)%Z; simpl; rewrite ?CompOpp_involutive; reflexivity.
  - intros a b c. rewrite !period_compare_Lt. unfold period_lt. lia.
Qed.

Section GroupingFacts.
Context {K : Type} `{GroupKeyLaws K}.

Lemma key_eqb_eq (a b : K) : key_eqb a b = true <-> a = b.
Proof.
  unfold key_eqb. rewrite <- key_compare_eq.
  destruct (key_compare a b); split; congruence.
Qed.

Lemma key_eqb_refl (a : K) : key_eqb a a = true.
Proof. now apply key_eqb_eq. Qed.

Lemma key_lt_irrefl (a : K) : ~ key_lt a a.
Proof.
  unfold key_lt. intro E.
  assert (key_compare a a = Eq) by now apply key_compare_eq.
  congruence.
Qed.

Lemma key_compare_Gt (a b : K) : key_compare a b = Gt -> key_lt b a.
Proof.
  unfold key_lt. intro E. rewrite key_compare_antisym, E. reflexivity.
Qed.

Lemma insert_key_In (x k : K) (ks : list K) :
  In x (insert_key k ks) <-> x = k \/ In x ks.
Proof.
  induction ks as [|h t IH]; simpl.
  - intuition.
  - destruct (key_compare k h) eqn:E; simpl.
    + apply key_compare_eq in E. subst h. intuition.
    + intuition.
    + rewrite IH. intuition.
Qed.

Lemma insert_key_sorted (k : K) (ks : list K) :
  StronglySorted key_lt ks -> StronglySorted key_lt (insert_key k ks).
Proof.
  induction 1 as [|h t Hs IH Hall]; simpl.
  - repeat constructor.
  - destruct (key_compare k h) eqn:E.
    + now constructor.
    + constructor; [now constructor|].
      constructor; [exact E|].
      rewrite Forall_forall in *. intros y Hy.
      exact (key_compare_trans _ _ _ E (Hall y Hy)).
    + constructor; [exact IH|].
      rewrite Forall_forall in *. intros y Hy.
      apply insert_key_In in Hy. destruct Hy as [->|Hy].
      * now apply key_compare_Gt.
      * now apply Hall.
Qed.

Lemma group_keys_In (k : K) (col : list (option K)) :
  In k (group_keys col) <-> In (Some k) col.
Proof.
  unfold group_keys. rewrite <- dropna_In.
  induction (dropna col) as [|x l IH]; simpl; [tauto|].
  rewrite insert_key_In, IH. intuition.
Qed.

(** The group labels come in strictly ascending order. *)
Lemma group_keys_sorted (col : list (option K)) :
  StronglySorted key_lt (group_keys col).
Proof.
  unfold group_keys.
  induction (dropna col) as [|x l IH]; simpl.
  - constructor.
  - now apply insert_key_sorted.
Qed.

Lemma sorted_NoDup (ks : list K) : StronglySorted key_lt ks -> NoDup ks.
Proof.
  induction 1 as [|h t Hs IH Hall]; constructor; [|exact IH].
  intro Hin. rewrite Forall_forall in Hall.
  exact (key_lt_irrefl h (Hall h Hin)).
Qed.

Lemma group_keys_NoDup (col : list (option K)) : NoDup (group_keys col).
Proof. apply sorted_NoDup, group_keys_sorted. Qed.

Lemma has_key_spec (key : row -> option K) (k : K) (r : row) :
  has_key key k r = true <-> key r = Some k.
Proof.
  unfold has_key. destruct (key r) as [k'|].
  - rewrite key_eqb_eq. split; congruence.
  - split; discriminate.
Qed.

Lemma rows_with_In (key : row -> option K) (k : K) (df : table) (r : row) :
  In r (rows_with key k df) <-> In r df /\ key r = Some k.
Proof. unfold rows_with. now rewrite filter_In, has_key_spec. Qed.

(** A label is a group exactly when some row carries it. *)
Lemma group_label (key : row -> option K) (k : K) (df : table) :
  In k (group_keys (map key df)) <-> exists r, In r df /\ key r = Some k.
Proof.
  rewrite group_keys_In, in_map_iff. split.
  - intros (r & E & Hr). eauto.
  - intros (r & Hr & E). eauto.
Qed.

Lemma rows_with_absent (key : row -> option K) (k : K) (df : table) :
  ~ In k (group_keys (map key df)) -> rows_with key k df = [].
Proof.
  intro Hn. unfold rows_with. 
  induction df as [|r df IH]; simpl; [reflexivity|].
  destruct (has_key key k r) eqn:E.
  - exfalso. apply Hn, group_label. exists r. split; [now left|].
    now apply has_key_spec.
  - apply IH. intro Hin. apply Hn. apply group_label in Hin.
    destruct Hin as (r' & Hr' & E'). apply group_label. exists r'. split; [now right|assumption].
Qed.

Lemma group_mean_eq (key : row -> option K) (df : table) :
  group_mean key df =
  map (fun k => (k, mean_of (delays (rows_with key k df)))) (group_keys (map key df)).
Proof.
  unfold group_mean, groupby. rewrite map_map. reflexivity.
Qed.

(** The entries of a grouped mean: one per label some row carries, holding
    the mean of the delays present in the rows under that label. *)
Lemma group_mean_In (key : row -> option K) (df : table) (k : K) (m : option Q) :
  In (k, m) (group_mean key df) <->
  (exists r, In r df /\ key r = Some k) /\ m = mean_of (delays (rows_with key k df)).
Proof.
  rewrite group_mean_eq, in_map_iff, <- group_label. split.
  - intros (k' & E & Hin). injection E as -> <-. auto.
  - intros [Hin ->]. eauto.
Qed.

Lemma lookup_map {V} (f : K -> V) (k : K) (ks : list K) :
  lookup k (map (fun x => (x, f x)) ks) = if existsb (fun x => key_eqb x k) ks then Some (f k) else None.
Proof.
  induction ks as [|h t IH]; simpl; [reflexivity|].
  destruct (key_eqb h k) eqn:E; simpl.
  - apply key_eqb_eq in E. now subst.
  - exact IH.
Qed.

Lemma existsb_key (k : K) (ks : list K) :
  existsb (fun x => key_eqb x k) ks = true <-> In k ks.
Proof.
  rewrite existsb_exists. split.
  - intros (x & Hx & E). apply key_eqb_eq in E. now subst.
  - intro Hin. exists k. split; [assumption | apply key_eqb_refl].
Qed.

(** Reindexing a grouped mean: every requested label gets the mean of the
    delays present in the rows under it, which is NaN when there is no such
    row. *)
Lemma reindex_group_mean (key : row -> option K) (labels : list K) (df : table) :
  reindex labels (group_mean key df) =
  map (fun l => (l, mean_of (delays (rows_with key l df)))) labels.
Proof.
  unfold reindex. apply map_ext. intro l. f_equal.
  rewrite group_mean_eq, lookup_map.
  destruct (existsb _ _) eqn:E; [reflexivity|].
  rewrite rows_with_absent; [reflexivity|].
  intro Hin. apply existsb_key in Hin. congruence.
Qed.

(** Rows without a key play no part in grouping. *)
Lemma group_mean_dropna (key : row -> option K) (df : table) :
  group_mean key (filter (fun r => match key r with Some _ => true | None => false end) df)
  = group_mean key df.
Proof.
  rewrite !group_mean_eq.
  set (present := fun r => match key r with Some _ => true | None => false end).
  assert (Hk : group_keys (map key (filter present df)) = group_keys (map key df)).
  { unfold group_keys. f_equal.
    induction df as [|r df IH]; simpl; [reflexivity|].
    unfold present at 1. destruct (key r) eqn:E; simpl; rewrite ?E; now rewrite IH. }
  rewrite Hk. apply map_ext. intro k. do 3 f_equal.
  apply filter_implied. intros r E.
  apply has_key_spec in E. unfold present. now rewrite E.
Qed.

End GroupingFacts.

(* ------------------------------------------------------------------ *)
(** ** Average delay and delay by state *)

Lemma delays_late (df : table) :
  delays (filter is_late df) = filter is_positive (delays df).
Proof.
  unfold delays. induction df as [|r df IH]; simpl; [reflexivity|].
  unfold is_late at 1, cell_gt.
  destruct (delivery_delay r) as [d|] eqn:E; simpl.
  - unfold is_positive at 1.
    destruct (negb (Qle_bool d 0)); simpl; rewrite ?E; now rewrite IH.
  - exact IH.
Qed.

Lemma avg_delay_eq (df : table) : avg_delay df = mean_of (delays (filter is_late df)).
Proof. unfold avg_delay. now rewrite select_map. Qed.

Lemma is_positive_spec (d : Q) : is_positive d = true <-> 0 < d.
Proof.
  pose proof (cell_gt_spec (Some d) 0) as Hs. simpl in Hs.
  unfold is_positive. rewrite Hs. split.
  - intros (v & E & Hv). now injection E as <-.
  - intro Hd. eauto.
Qed.

Lemma mean_of_positive (xs : list Q) (m : Q) :
  (forall x, In x xs -> 0 < x) -> mean_of xs = Some m -> 0 < m.
Proof.
  intros Hall E. destruct xs as [|x xs]; [discriminate|].
  injection E as <-.
  apply Qlt_shift_div_l; [apply Qlen_pos|].
  rewrite Qmult_0_l. now apply Qsum_pos.
Qed.

Lemma delays_In (d : Q) (rows : table) :
  In d (delays rows) <-> exists r, In r rows /\ delivery_delay r = Some d.
Proof.
  unfold delays. rewrite dropna_In, in_map_iff.
  split; intros (r & H1 & H2); eauto.
Qed.

Lemma mean_of_is_mean (xs : list Q) : is_mean_of xs (mean_of xs).
Proof.
  destruct xs as [|a l]; simpl; [reflexivity|].
  split; [discriminate|].
  pose proof (Qlen_pos a l) as Hn.
  change (fold_right Qplus 0 (a :: l)) with (Qsum (a :: l)).
  field. lra.
Qed.

(** When the label agrees with the sign of the delay, dropping the
    "On Time" rows leaves the average delay as it is. *)
Lemma avg_delay_labels_agree (df : table) :
  labels_agree df ->
  avg_delay df = avg_delay (filter (fun r => negb (is_on_time r)) df).
Proof.
  intro Hagree. rewrite !avg_delay_eq. do 2 f_equal. symmetry.
  apply filter_implied_in. intros r Hin Hlate.
  apply negb_true_iff. destruct (is_on_time r) eqn:E; [|reflexivity].
  apply cell_eqb_spec in E. rewrite (Hagree r Hin E) in Hlate. discriminate.
Qed.

(** C4, as the script behaves.  The average delay of the summary is the
    mean of the delays of exactly the rows with a positive delay, whatever
    their label: the "On Time" rows without a positive delay play no part
    in it, an "On Time" row with a positive delay does.  It is NaN exactly
    when no row has a positive delay and is otherwise a positive number, so
    never zero.  The delay-by-state view has one entry per state some row
    carries, the mean of every delay present in that state's rows, whatever
    its sign: a delay that is not positive is averaged in its state's entry
    and is not among the delays the summary averages. *)
Theorem avg_delay_scope (df : table) :
  is_mean_of (delays (filter is_late df)) (avg_delay df) /\
  (forall r, In r (filter is_late df) <->
     In r df /\ exists d, delivery_delay r = Some d /\ 0 < d) /\
  (forall d rows, In d (delays rows) <->
     exists r, In r rows /\ delivery_delay r = Some d) /\
  avg_delay df = avg_delay (filter (fun r => negb (is_on_time r) || is_late r) df) /\
  (avg_delay df = None <->
   forall r d, In r df -> delivery_delay r = Some d -> ~ 0 < d) /\
  (forall m, avg_delay df = Some m -> 0 < m) /\
  (forall k, (exists r, In r df /\ customer_state r = Some k) <->
             exists m, In (k, m) (state_delay df)) /\
  (forall k m, In (k, m) (state_delay df) ->
     is_mean_of (delays (rows_with customer_state k df)) m) /\
  (forall k r, In r (rows_with customer_state k df) <->
     In r df /\ customer_state r = Some k) /\
  (forall r d k, In r df -> delivery_delay r = Some d -> d <= 0 ->
     customer_state r = Some k ->
     In d (delays (rows_with customer_state k df)) /\
     ~ In d (delays (filter is_late df))).
Proof.
  assert (Hlate : forall r, In r (filter is_late df) <->
            In r df /\ exists d, delivery_delay r = Some d /\ 0 < d).
  { intro r. rewrite filter_In. unfold is_late. now rewrite cell_gt_spec. }
  split; [rewrite avg_delay_eq; apply mean_of_is_mean|].
  split; [exact Hlate|].
  split; [intros d rows; apply delays_In|].
  split.
  { rewrite !avg_delay_eq. do 2 f_equal. symmetry.
    apply filter_implied. intros r Hl. rewrite Hl. apply orb_true_r. }
  split.
  { rewrite avg_delay_eq, delays_late, mean_of_None. split.
    - intros Hnil r d Hin Hd Hpos.
      assert (Hi : In d (filter is_positive (delays df))).
      { apply filter_In. split.
        - apply dropna_In, in_map_iff. eauto.
        - now apply is_positive_spec. }
      rewrite Hnil in Hi. exact Hi.
    - intro Hno. destruct (filter is_positive (delays df)) as [|d l] eqn:E; [reflexivity|].
      assert (Hi : In d (filter is_positive (delays df))) by (rewrite E; now left).
      apply filter_In in Hi. destruct Hi as [Hi Hp].
      apply dropna_In, in_map_iff in Hi. destruct Hi as (r & Hr & Hin).
      apply is_positive_spec in Hp. exfalso. exact (Hno r d Hin Hr Hp). }
  split.
  { intros m. rewrite avg_delay_eq, delays_late. apply mean_of_positive.
    intros x Hx. apply filter_In in Hx. now apply is_positive_spec. }
  split.
  { intro k. split.
    - intro Hex. exists (mean_of (delays (rows_with customer_state k df))).
      apply group_mean_In. split; [exact Hex | reflexivity].
    - intros [m Hin]. apply group_mean_In in Hin. tauto. }
  split.
  { intros k m Hin. apply group_mean_In in Hin. destruct Hin as [_ ->].
    apply mean_of_is_mean. }
  split; [intros k r; apply rows_with_In|].
  intros r d k Hin Hd Hle Hk. split.
  - apply delays_In. exists r. split; [|exact Hd]. apply rows_with_In. auto.
  - intro Hc. apply delays_In in Hc. destruct Hc as (r' & Hr' & Hd').
    apply Hlate in Hr'. destruct Hr' as [_ (d' & E & Hpos)].
    assert (d' = d) by congruence. subst d'. lra.
Qed.

(** The sample orders under C4: the summary averages 5, 10 and 10; the
    state SP averages 5 and -2, the state RJ 10 and 10. *)
Lemma avg_delay_scope_witness :
  avg_delay sample_orders =?= Some (25 # 3) /\
  state_delay sample_orders = [("RJ"%string, Some (20 / 2)); ("SP"%string, Some (3 / 2))] /\
  is_mean_of (delays (filter is_late sample_orders)) (avg_delay sample_orders).
Proof.
  split; [vm_compute; reflexivity|].
  split; [vm_compute; reflexivity|].
  exact (proj1 (avg_delay_scope sample_orders)).
Defined.

(** C4 fails on the script: of the two mislabelled orders the second is
    "On Time" with a delay of 5 days, and it is averaged in: the average
    delay is 4, the mean of 3 and 5, where leaving the "On Time" row out
    gives 3. *)
Lemma avg_delay_counts_on_time_row :
  (exists r, In r mislabelled_orders /\
             delivery_status r = Some "On Time"%string /\
             delivery_delay r = Some 5) /\
  avg_delay mislabelled_orders =?= Some 4 /\
  avg_delay (filter (fun r => negb (is_on_time r)) mislabelled_orders) =?= Some 3 /\
  ~ (avg_delay mislabelled_orders
       =?= avg_delay (filter (fun r => negb (is_on_time r)) mislabelled_orders)).
Proof.
  split.
  { eexists. split; [right; left; reflexivity|]. split; reflexivity. }
  split; [vm_compute; reflexivity|].
  split; [vm_compute; reflexivity|].
  vm_compute. discriminate.
Qed.

(* ------------------------------------------------------------------ *)
(** ** Sorting *)

Lemma StronglySorted_app {A} (R : A -> A -> Prop) (l1 l2 : list A) :
  StronglySorted R l1 -> StronglySorted R l2 ->
  (forall x y, In x l1 -> In y l2 -> R x y) ->
  StronglySorted R (l1 ++ l2).
Proof.
  induction 1 as [|a l Hs IH Hall]; intros H2 Hx; simpl; [exact H2|].
  constructor.
  - apply IH; [exact H2|]. intros x y Hi Hj. apply Hx; [now right | exact Hj].
  - apply Forall_forall. intros y Hy. apply in_app_or in Hy.
    destruct Hy as [Hy|Hy].
    + rewrite Forall_forall in Hall. now apply Hall.
    + apply Hx; [now left | exact Hy].
Qed.

Lemma StronglySorted_rev {A} (R : A -> A -> Prop) (l : list A) :
  StronglySorted R l -> StronglySorted (fun a b => R b a) (rev l).
Proof.
  induction 1 as [|a l Hs IH Hall]; simpl; [constructor|].
  apply StronglySorted_app; [exact IH | repeat constructor |].
  intros x y Hx [<-|[]]. apply in_rev in Hx.
  rewrite Forall_forall in Hall. now apply Hall.
Qed.

Lemma asc_trans : Relations_1.Transitive asc.
Proof. intros a b c. unfold asc. intros. lra. Qed.

(** Reversed, the output of a sorting routine is in descending order. *)
Lemma sorted_desc (sort : sorter) (l : list (string * Q)) :
  sorting_routine sort -> StronglySorted desc (rev (sort l)).
Proof.
  intro Hsort. apply (StronglySorted_rev asc).
  apply Sorted_StronglySorted; [exact asc_trans | apply Hsort].
Qed.

Lemma sorted_perm (sort : sorter) (l : list (string * Q)) :
  sorting_routine sort -> Permutation (rev (sort (rev l))) l.
Proof.
  intro Hsort.
  rewrite <- Permutation_rev, (proj1 (Hsort _)), <- Permutation_rev. reflexivity.
Qed.

Lemma insert_entry_perm (e : string * Q) (l : list (string * Q)) :
  Permutation (insert_entry e l) (e :: l).
Proof.
  induction l as [|h t IH]; simpl; [reflexivity|].
  destruct (Qle_bool (snd e) (snd h)); [reflexivity|].
  rewrite IH. apply perm_swap.
Qed.

Lemma insert_entry_sorted (e : string * Q) (l : list (string * Q)) :
  Sorted asc l -> Sorted asc (insert_entry e l).
Proof.
  induction 1 as [|h t Hs IH Hh]; simpl; [repeat constructor|].
  destruct (Qle_bool (snd e) (snd h)) eqn:E.
  - apply Qle_bool_iff in E. repeat constructor; assumption.
  - assert (Hlt : snd h <= snd e).
    { apply Qlt_le_weak, Qnot_le_lt. intro Hle. apply Qle_bool_iff in Hle. congruence. }
    constructor; [exact IH|].
    destruct t as [|h' t']; simpl.
    + now constructor.
    + destruct (Qle_bool (snd e) (snd h')); constructor;
        [exact Hlt | now inversion Hh].
Qed.

(** Straight insertion is a sorting routine. *)
Lemma insertion_sort_routine : sorting_routine insertion_sort.
Proof.
  intro l. unfold insertion_sort. induction l as [|e l [IHp IHs]]; simpl.
  - split; constructor.
  - split.
    + rewrite insert_entry_perm. now constructor.
    + now apply insert_entry_sorted.
Qed.

Lemma head_In {A} (n : nat) (x : A) (s : list A) : In x (head n s) -> In x s.
Proof.
  unfold head. intro Hin. rewrite <- (firstn_skipn n s).
  apply in_or_app. now left.
Qed.

Lemma notna_In {K} (k : K) (v : Q) (s : list (K * option Q)) :
  In (k, v) (notna s) <-> In (k, Some v) s.
Proof.
  induction s as [|[k' [v'|]] s IH]; simpl.
  - tauto.
  - rewrite IH. split; intros [E|E]; auto; left; congruence.
  - rewrite IH. split; [auto|]. intros [E|E]; [discriminate|assumption].
Qed.

Lemma notna_isna_length {K} (s : list (K * option Q)) :
  (length (notna s) + length (isna s) = length s)%nat.
Proof.
  unfold isna. induction s as [|[k [v|]] s IH]; simpl; lia.
Qed.

Lemma sort_values_desc_In (sort : sorter) (s : list (string * option Q))
      (k : string) (m : option Q) :
  sorting_routine sort -> In (k, m) (sort_values_desc sort s) -> In (k, m) s.
Proof.
  intros Hsort Hin. unfold sort_values_desc in Hin.
  apply in_app_or in Hin. destruct Hin as [Hin|Hin].
  - apply in_map_iff in Hin. destruct Hin as ([k' v] & E & Hin).
    injection E as -> <-.
    apply (Permutation_in _ (sorted_perm sort (notna s) Hsort)) in Hin.
    now apply notna_In.
  - unfold isna in Hin. now apply filter_In in Hin.
Qed.

(* ------------------------------------------------------------------ *)
(** ** Top 10 delayed categories *)




(** C10.  The rows without a category contribute nothing to the view: it is
    the view of the table with those rows taken out, and every category it
    lists is the category of some row. *)
Theorem top_delayed_skips_missing_category
        (sort : sorter) (Hsort : sorting_routine sort) (df : table) :
  top_delayed sort df = top_delayed sort (filter has_category df) /\
  (forall k m, In (k, m) (top_delayed sort df) ->
               exists r, In r df /\ product_category_name r = Some k).
Proof.
  split.
  - unfold top_delayed. unfold has_category. now rewrite group_mean_dropna.
  - intros k m Hin. unfold top_delayed in Hin.
    apply head_In in Hin. apply (sort_values_desc_In _ _ _ _ Hsort) in Hin.
    apply group_mean_In in Hin. tauto.
Qed.

(** Witness of C10: on the sample orders the rows without a category are the
    most delayed ones (10 days) and the view lists "toys" and "auto" only. *)
Lemma top_delayed_skips_missing_category_witness :
  sorting_routine insertion_sort /\
  top_delayed insertion_sort sample_orders
    = top_delayed insertion_sort (filter has_category sample_orders) /\
  top_delayed insertion_sort sample_orders
    = [("toys"%string, Some 5); ("auto"%string, Some (-2 # 1))].
Proof.
  split; [exact insertion_sort_routine|].
  split; [|reflexivity].
  exact (proj1 (top_delayed_skips_missing_category
                  insertion_sort insertion_sort_routine sample_orders)).
Defined.

(* ------------------------------------------------------------------ *)
(** ** Weight categories *)



(* ------------------------------------------------------------------ *)
(** ** Weekday profile *)

Lemma in_week_spec (r : row) :
  in_week r = true <-> exists d, order_weekday r = Some d /\ In d weekdays.
Proof.
  unfold in_week. destruct (order_weekday r) as [d|].
  - rewrite existsb_exists. split.
    + intros (x & Hx & E). apply String.eqb_eq in E. subst. eauto.
    + intros (x & E & Hx). injection E as <-. exists d.
      split; [assumption | apply String.eqb_refl].
  - split; [discriminate|]. intros (d & E & _). discriminate.
Qed.

(** C8.  The view has exactly the seven entries Monday to Sunday, in that
    order.  The entry of a day holds the mean of the delays present in the
    rows of that day: NaN when it has none (the day is kept all the same),
    and otherwise the number that, times their count, gives their sum.  Rows
    whose weekday is none of the seven names raise nothing and change
    nothing: the view is that of the table without them. *)
Theorem weekday_perf_profile (df : table) :
  map fst (weekday_perf df) = weekdays /\
  length (weekday_perf df) = 7%nat /\
  (forall d m, In (d, m) (weekday_perf df) ->
     In d weekdays /\ is_mean_of (delays (rows_with order_weekday d df)) m) /\
  (forall d r, In r (rows_with order_weekday d df) <->
     In r df /\ order_weekday r = Some d) /\
  (forall x rows, In x (delays rows) <->
     exists r, In r rows /\ delivery_delay r = Some x) /\
  weekday_perf df =
    map (fun d => (d, mean_of (delays (rows_with order_weekday d df)))) weekdays /\
  (forall d, In d weekdays ->
             (forall r, In r df -> order_weekday r <> Some d) ->
             In (d, None) (weekday_perf df)) /\
  weekday_perf df = weekday_perf (filter in_week df).
Proof.
  assert (E : forall t, weekday_perf t =
    map (fun d => (d, mean_of (delays (rows_with order_weekday d t)))) weekdays)
    by (intro t; apply reindex_group_mean).
  split; [now rewrite E|].
  split; [now rewrite E|].
  split.
  { intros d m Hin. rewrite E in Hin. apply in_map_iff in Hin.
    destruct Hin as (d' & Ed & Hd). injection Ed as -> <-.
    split; [exact Hd | apply mean_of_is_mean]. }
  split; [intros d r; apply rows_with_In|].
  split; [intros x rows; apply delays_In|].
  split; [apply E|].
  split.
  - intros d Hd Hnone. rewrite E. apply in_map_iff. exists d. split; [|exact Hd].
    f_equal. replace (rows_with order_weekday d df) with (@nil row); [reflexivity|].
    symmetry. apply rows_with_absent. intro Hin. apply group_label in Hin.
    destruct Hin as (r & Hr & Hk). exact (Hnone r Hr Hk).
  - rewrite !E. apply map_ext_in. intros d Hd. do 3 f_equal.
    unfold rows_with. symmetry. apply filter_implied.
    intros r Hk. apply has_key_spec in Hk. apply in_week_spec. eauto.
Qed.

(** The profile of the orders with odd weekdays under C8: Monday holds 3,
    the mean of 2 and 4; Sunday, whose one row has no delay, and the five
    days without rows hold NaN; the rows of "Funday" and of no weekday (100
    and 50 days late) appear nowhere, and taking them out beforehand gives
    the same profile. *)
Lemma weekday_perf_profile_witness :
  weekday_perf odd_weekday_orders =
    [("Monday"%string, Some (6 / 2)); ("Tuesday"%string, None);
     ("Wednesday"%string, None); ("Thursday"%string, None);
     ("Friday"%string, None); ("Saturday"%string, None);
     ("Sunday"%string, None)] /\
  length (filter in_week odd_weekday_orders) = 3%nat /\
  weekday_perf odd_weekday_orders = weekday_perf (filter in_week odd_weekday_orders) /\
  is_mean_of [2; 4] (Some (6 # 2)).
Proof.
  split; [vm_compute; reflexivity|].
  split; [reflexivity|].
  pose proof (weekday_perf_profile odd_weekday_orders)
    as (_ & _ & Hmean & _ & _ & _ & _ & Hdrop).
  split; [exact Hdrop|].
  assert (Hin : In ("Monday"%string, Some (6 # 2)) (weekday_perf odd_weekday_orders))
    by (vm_compute; now left).
  exact (proj2 (Hmean _ _ Hin)).
Defined.

(* ------------------------------------------------------------------ *)
(** ** Monthly trend *)

Lemma digit_val_digit (n : Z) : digit_val (digit n) = (n mod 10)%Z.
Proof.
  unfold digit_val, digit.
  assert (0 <= n mod 10 < 10)%Z as Hd by (apply Z.mod_pos_bound; lia).
  rewrite nat_ascii_embedding by lia. lia.
Qed.

Lemma read_label_period_str (y m : Z) :
  (0 <= y < 10000)%Z -> (0 <= m < 100)%Z ->
  read_label (period_str (y, m)) = Some (y, m).
Proof.
  intros Hy Hm. unfold period_str, read_label.
  rewrite Ascii.eqb_refl, !digit_val_digit. do 2 f_equal.
  - Z.to_euclidean_division_equations. lia.
  - Z.to_euclidean_division_equations. lia.
Qed.

Lemma StronglySorted_impl {A} (R S : A -> A -> Prop) (l : list A) :
  (forall a b, R a b -> S a b) -> StronglySorted R l -> StronglySorted S l.
Proof.
  intro HRS. induction 1 as [|a l Hs IH Hall]; constructor; [exact IH|].
  revert Hall. apply Forall_impl. apply HRS.
Qed.



(* ------------------------------------------------------------------ *)
(** ** Correlation matrix *)

Lemma Qsum_ext {A} (f g : A -> Q) (l : list A) :
  (forall x, In x l -> f x == g x) -> Qsum (map f l) == Qsum (map g l).
Proof.
  induction l as [|x l IH]; intro Hfg; simpl; [reflexivity|].
  rewrite (Hfg x) by now left.
  rewrite IH; [reflexivity|]. intros y Hy. apply Hfg. now right.
Qed.

Lemma Qsum_nonneg (l : list Q) : (forall x, In x l -> 0 <= x) -> 0 <= Qsum l.
Proof.
  induction l as [|x l IH]; intro Hall; simpl; [lra|].
  assert (0 <= x) by (apply Hall; now left).
  assert (0 <= Qsum l) by (apply IH; intros y Hy; apply Hall; now right).
  lra.
Qed.

Lemma swap_swap (obs : list (Q * Q)) : map swap (map swap obs) = obs.
Proof.
  rewrite map_map. rewrite <- (map_id obs) at 2.
  apply map_ext. now intros [x y].
Qed.

Lemma pairwise_complete_swap (xs ys : list (option Q)) :
  pairwise_complete ys xs = map swap (pairwise_complete xs ys).
Proof.
  revert ys. induction xs as [|[x|] xs IH]; intros [|[y|] ys]; simpl;
    try reflexivity; try apply IH.
  now rewrite IH.
Qed.

Lemma pairwise_complete_diag (xs : list (option Q)) :
  map diag (pairwise_complete xs xs) = pairwise_complete xs xs.
Proof.
  induction xs as [|[x|] xs IH]; simpl; [reflexivity | | exact IH].
  now rewrite IH.
Qed.

Lemma diag_swap (obs : list (Q * Q)) : map swap (map diag obs) = map diag obs.
Proof. rewrite map_map. apply map_ext. now intros [x y]. Qed.

Lemma codeviation_swap (obs : list (Q * Q)) :
  codeviation (map swap obs) == codeviation obs.
Proof.
  unfold codeviation. cbv zeta.
  assert (E1 : map fst (map swap obs) = map snd obs)
    by (rewrite map_map; apply map_ext; now intros [x y]).
  assert (E2 : map snd (map swap obs) = map fst obs)
    by (rewrite map_map; apply map_ext; now intros [x y]).
  rewrite E1, E2, Qlen_map, map_map.
  apply Qsum_ext. intros [x y] _. simpl. ring.
Qed.

Lemma ssqdm_xy_swap (obs : list (Q * Q)) :
  ssqdm_x (map swap obs) = ssqdm_y obs /\ ssqdm_y (map swap obs) = ssqdm_x obs.
Proof. unfold ssqdm_y. now rewrite swap_swap. Qed.

Lemma ssqdm_x_nonneg (obs : list (Q * Q)) : 0 <= ssqdm_x obs.
Proof.
  unfold ssqdm_x, codeviation. rewrite !map_map.
  apply Qsum_nonneg. intros v Hv. apply in_map_iff in Hv.
  destruct Hv as ([x y] & <- & _). simpl.
  set (d := x - _). 
  assert (0 <= d * d) by nra. exact H.
Qed.

Lemma ssqdm_x_single (x y : Q) : ssqdm_x [(x, y)] == 0.
Proof.
  unfold ssqdm_x, codeviation, Qlen. simpl. field.
Qed.

Lemma Qsq_nonneg (d : Q) : 0 <= d * d.
Proof. nra. Qed.

Lemma ssqdm_x_eq (obs : list (Q * Q)) :
  ssqdm_x obs =
  Qsum (map (fun p => (fst p - Qsum (map fst obs) / Qlen obs)
                      * (fst p - Qsum (map fst obs) / Qlen obs)) obs).
Proof.
  unfold ssqdm_x, codeviation. cbv zeta.
  assert (E1 : map fst (map diag obs) = map fst obs)
    by (rewrite map_map; apply map_ext; now intros [x y]).
  assert (E2 : map snd (map diag obs) = map fst obs)
    by (rewrite map_map; apply map_ext; now intros [x y]).
  rewrite E1, E2, Qlen_map, map_map. reflexivity.
Qed.

Lemma Qsum_zero_all (l : list Q) :
  (forall x, In x l -> 0 <= x) -> Qsum l == 0 -> forall x, In x l -> x == 0.
Proof.
  induction l as [|a l IH]; intros Hall Hz x Hx; simpl in *; [contradiction|].
  assert (0 <= a) by (apply Hall; now left).
  assert (0 <= Qsum l) by (apply Qsum_nonneg; intros y Hy; apply Hall; now right).
  destruct Hx as [<-|Hx]; [lra|].
  apply IH; [intros y Hy; apply Hall; now right | lra | exact Hx].
Qed.

(** A zero sum of squared deviations means one value throughout. *)
Lemma ssqdm_x_zero_constant (obs : list (Q * Q)) :
  ssqdm_x obs == 0 -> forall p q, In p obs -> In q obs -> fst p == fst q.
Proof.
  rewrite ssqdm_x_eq. set (m := Qsum (map fst obs) / Qlen obs). intro Hz.
  assert (Hnn : forall v, In v (map (fun p => (fst p - m) * (fst p - m)) obs) -> 0 <= v).
  { intros v Hv. apply in_map_iff in Hv. destruct Hv as (r & <- & _).
    apply Qsq_nonneg. }
  assert (Hm : forall p, In p obs -> fst p == m).
  { intros p Hp.
    assert (E : (fst p - m) * (fst p - m) == 0).
    { apply (Qsum_zero_all _ Hnn Hz). apply in_map_iff. eauto. }
    apply Qmult_integral in E. lra. }
  intros p q Hp Hq. now rewrite (Hm p Hp), (Hm q Hq).
Qed.

Lemma Qsum_constant (c : Q) (l : list Q) :
  (forall x, In x l -> x == c) -> Qsum l == Qlen l * c.
Proof.
  induction l as [|a l IH]; intro Hall.
  - unfold Qlen. simpl. ring.
  - rewrite Qlen_cons. simpl. rewrite (Hall a) by now left.
    rewrite IH by (intros y Hy; apply Hall; now right). ring.
Qed.

(** One value throughout means a zero sum of squared deviations. *)
Lemma ssqdm_x_constant (c : Q) (obs : list (Q * Q)) :
  (forall p, In p obs -> fst p == c) -> ssqdm_x obs == 0.
Proof.
  intro Hall. rewrite ssqdm_x_eq.
  destruct obs as [|o obs']; [reflexivity|].
  set (obs := o :: obs') in *.
  assert (Hm : Qsum (map fst obs) / Qlen obs == c).
  { rewrite (Qsum_constant c).
    - rewrite Qlen_map. field. pose proof (Qlen_pos o obs'). fold obs in H. lra.
    - intros x Hx. apply in_map_iff in Hx. destruct Hx as (p & <- & Hp). now apply Hall. }
  rewrite (Qsum_ext _ (fun _ => 0)).
  - clear. induction obs as [|a l IH]; simpl; [reflexivity|]. rewrite IH. ring.
  - intros p Hp. rewrite Hm, (Hall p Hp). ring.
Qed.

Lemma column_obs_In (x : Q) (col : list (option Q)) :
  In (Some x) col -> In (x, x) (column_obs col).
Proof.
  unfold column_obs. induction col as [|[y|] col IH]; simpl.
  - tauto.
  - intros [E|Hin]; [left; congruence | right; now apply IH].
  - intros [E|Hin]; [discriminate | now apply IH].
Qed.

Section Correlation.
Variable sqrt : Q -> Q.
Hypothesis sqrt_ok : square_root sqrt.

Lemma sqrt_zero (x : Q) : x == 0 -> sqrt x == 0.
Proof.
  intro E. destruct sqrt_ok as [Hp Hs].
  rewrite (Hp x (0 * 0)) by (rewrite E; ring).
  apply Hs. lra.
Qed.

(** The coefficient does not depend on the order of the two columns. *)
Lemma pearson_sym (xs ys : list (option Q)) :
  pearson sqrt xs ys =?= pearson sqrt ys xs.
Proof.
  unfold pearson. rewrite (pairwise_complete_swap xs ys).
  set (obs := pairwise_complete xs ys).
  rewrite length_map.
  destruct (length obs <? 1)%nat; [exact I|].
  destruct (ssqdm_xy_swap obs) as [-> ->].
  assert (Ed : sqrt (ssqdm_x obs * ssqdm_y obs) == sqrt (ssqdm_y obs * ssqdm_x obs))
    by (apply sqrt_ok; ring).
  rewrite <- (Qeqb_comp _ _ Ed 0 0 (Qeq_refl 0)).
  destruct (Qeq_bool (sqrt (ssqdm_x obs * ssqdm_y obs)) 0) eqn:Ez; [exact I|].
  simpl. rewrite codeviation_swap, Ed. reflexivity.
Qed.

(** A column with a nonzero sum of squared deviations correlates with
    itself at 1. *)
Lemma pearson_diag (xs : list (option Q)) :
  ~ ssqdm_x (column_obs xs) == 0 -> pearson sqrt xs xs =?= Some 1.
Proof.
  unfold column_obs, pearson. set (obs := pairwise_complete xs xs).
  intro Hnz.
  assert (Hd : map diag obs = obs) by apply pairwise_complete_diag.
  assert (Ey : ssqdm_y obs = ssqdm_x obs).
  { unfold ssqdm_y, ssqdm_x. now rewrite <- Hd, diag_swap, Hd. }
  assert (Ec : codeviation obs = ssqdm_x obs) by (unfold ssqdm_x; now rewrite Hd).
  rewrite Ey, Ec.
  destruct obs as [|o obs'] eqn:Eo.
  { exfalso. apply Hnz. reflexivity. }
  rewrite <- Eo in *. replace (length obs <? 1)%nat with false
    by (rewrite Eo; reflexivity).
  assert (Es : sqrt (ssqdm_x obs * ssqdm_x obs) == ssqdm_x obs)
    by (apply sqrt_ok, ssqdm_x_nonneg).
  destruct (Qeq_bool _ 0) eqn:Ez.
  - apply Qeq_bool_iff in Ez. rewrite Es in Ez. contradiction.
  - simpl. rewrite Es. now field.
Qed.

(** Without variation in one of the two columns there is no coefficient. *)
Lemma pearson_zero_variance (xs ys : list (option Q)) :
  ssqdm_x (pairwise_complete xs ys) == 0 \/ ssqdm_y (pairwise_complete xs ys) == 0 ->
  pearson sqrt xs ys = None.
Proof.
  intro Hz. unfold pearson. set (obs := pairwise_complete xs ys) in *.
  destruct (length obs <? 1)%nat; [reflexivity|].
  assert (E : sqrt (ssqdm_x obs * ssqdm_y obs) == 0)
    by (apply sqrt_zero; destruct Hz as [-> | ->]; ring).
  apply Qeq_bool_iff in E. now rewrite E.
Qed.

(** With fewer than two joint observations there is no coefficient. *)
Lemma pearson_few (xs ys : list (option Q)) :
  (length (pairwise_complete xs ys) < 2)%nat -> pearson sqrt xs ys = None.
Proof.
  intro Hlen. destruct (pairwise_complete xs ys) as [|[x y] [|o obs]] eqn:Eo.
  - unfold pearson. now rewrite Eo.
  - apply pearson_zero_variance. left. rewrite Eo. apply ssqdm_x_single.
  - simpl in Hlen. lia.
Qed.

Lemma entry_corr_matrix (df : table) (i j : nat) :
  (i < 6)%nat -> (j < 6)%nat ->
  entry (corr_matrix sqrt df) i j
  = pearson sqrt (feature_column i df) (feature_column j df).
Proof.
  intros Hi Hj. unfold entry, corr_matrix, feature_column.
  do 6 (destruct i as [|i]; [do 6 (destruct j as [|j]; [reflexivity|]); lia|]).
  lia.
Qed.

Lemma entry_out_of_range (df : table) (i j : nat) :
  (6 <= i)%nat \/ (6 <= j)%nat -> entry (corr_matrix sqrt df) i j = None.
Proof.
  intro H. unfold entry, corr_matrix.
  do 6 (destruct i as [|i];
        [do 6 (destruct j as [|j]; [lia|]); simpl; now destruct j|]).
  simpl. destruct i; now destruct j.
Qed.

End Correlation.

Lemma Qsqrt_square (x : Q) : 0 <= x -> Qsqrt (x * x) == x.
Proof.
  intro Hx. unfold Qsqrt.
  pose proof (gcd_Qred x) as Hg. pose proof (Qred_correct x) as Hc.
  assert (Hn : (0 <= Qnum (Qred x))%Z).
  { rewrite <- Hc in Hx. unfold Qle in Hx. simpl in Hx. lia. }
  destruct (Qred x) as [n d] eqn:Er. simpl in Hg, Hn.
  assert (E : Qred (x * x) = (n * n # d * d)).
  { rewrite (Qred_complete (x * x) ((n # d) * (n # d))) by now rewrite Hc.
    apply Qred_identity. simpl.
    rewrite Pos2Z.inj_mul. change (Z.coprime (n * n) (Z.pos d * Z.pos d)).
    apply Z.coprime_mul_l; apply Z.coprime_mul_r; exact Hg. }
  rewrite E. simpl.
  rewrite Z.sqrt_square by exact Hn.
  assert (Ed : Pos.sqrt (d * d) = d).
  { apply Pos2Z.inj. rewrite Pos2Z.inj_sqrt, Pos2Z.inj_mul.
    apply Z.sqrt_square. lia. }
  rewrite Ed. exact Hc.
Qed.

(** The rational root is a square root in the sense of the statements. *)
Lemma Qsqrt_square_root : square_root Qsqrt.
Proof.
  split.
  - intros x y E. unfold Qsqrt. now rewrite (Qred_complete x y E).
  - exact Qsqrt_square.
Qed.

Lemma Qsqrt_positive : positive_root Qsqrt.
Proof.
  intros x Hx. unfold Qsqrt.
  pose proof (Qred_correct x) as Hc.
  destruct (Qred x) as [n d]. simpl.
  assert (Hn : (0 < n)%Z).
  { rewrite <- Hc in Hx. unfold Qlt in Hx. simpl in Hx. lia. }
  unfold Qlt. simpl. rewrite Z.mul_1_r. now apply Z.sqrt_pos.
Qed.

Lemma joint_obs_eq (f g : row -> option Q) (df : table) :
  pairwise_complete (map f df) (map g df) = joint_obs f g df.
Proof.
  induction df as [|r df IH]; simpl; [reflexivity|].
  destruct (f r), (g r); now rewrite IH.
Qed.

Lemma joint_obs_In (f g : row -> option Q) (df : table) (x y : Q) :
  In (x, y) (joint_obs f g df) <-> exists r, In r df /\ f r = Some x /\ g r = Some y.
Proof.
  induction df as [|r df IH]; simpl.
  - split; [contradiction | intros (r & [] & _)].
  - assert (Hskip : (f r = None \/ g r = None) ->
              (In (x, y) (joint_obs f g df) <->
               exists r0, (r = r0 \/ In r0 df) /\ f r0 = Some x /\ g r0 = Some y)).
    { intro Hn. rewrite IH. split.
      - intros (r' & Hr' & E). exists r'. auto.
      - intros (r' & [<-|Hr'] & E1 & E2); [|eauto].
        destruct Hn; congruence. }
    destruct (f r) as [a|] eqn:Ef; [|apply Hskip; now left].
    destruct (g r) as [b|] eqn:Eg; [|apply Hskip; now right].
    simpl. rewrite IH. split.
    + intros [E|(r' & Hr' & E1 & E2)].
      * injection E as <- <-. exists r. auto.
      * exists r'. auto.
    + intros (r' & [<-|Hr'] & E1 & E2).
      * left. congruence.
      * right. eauto.
Qed.

Lemma joint_obs_length (f g : row -> option Q) (df : table) :
  length (joint_obs f g df)
  = rows_where (fun r => match f r, g r with Some _, Some _ => true | _, _ => false end) df.
Proof.
  unfold rows_where. induction df as [|r df IH]; simpl; [reflexivity|].
  destruct (f r), (g r); simpl; now rewrite IH.
Qed.

Lemma sum_xx_eq (obs : list (Q * Q)) : sum_xx obs = ssqdm_x obs.
Proof. symmetry. apply ssqdm_x_eq. Qed.

Lemma sum_yy_eq (obs : list (Q * Q)) : sum_yy obs = ssqdm_y obs.
Proof.
  unfold ssqdm_y. rewrite ssqdm_x_eq.
  assert (E : map fst (map swap obs) = map snd obs)
    by (rewrite map_map; apply map_ext; now intros [x y]).
  rewrite E, Qlen_map, map_map. reflexivity.
Qed.

Lemma sum_xy_eq (obs : list (Q * Q)) : sum_xy obs = codeviation obs.
Proof. reflexivity. Qed.

(** What the coefficient of two columns is: NaN exactly with fewer than two
    joint observations or without variation in one of the two, and
    otherwise the sum of products of deviations over the root of the
    product of the two sums of squares. *)
Lemma pearson_value (sqrt : Q -> Q) (xs ys : list (option Q)) :
  square_root sqrt -> positive_root sqrt ->
  let obs := pairwise_complete xs ys in
  (pearson sqrt xs ys = None <->
   (length obs < 2)%nat \/ sum_xx obs == 0 \/ sum_yy obs == 0) /\
  (forall r, pearson sqrt xs ys = Some r ->
     0 < sqrt (sum_xx obs * sum_yy obs) /\
     r * sqrt (sum_xx obs * sum_yy obs) == sum_xy obs).
Proof.
  intros Hsqrt Hpos obs. rewrite sum_xx_eq, sum_yy_eq, sum_xy_eq.
  pose proof (ssqdm_x_nonneg obs) as Hx.
  assert (Hy : 0 <= ssqdm_y obs) by apply ssqdm_x_nonneg.
  assert (Hback : (length obs < 2)%nat \/ ssqdm_x obs == 0 \/ ssqdm_y obs == 0 ->
                  pearson sqrt xs ys = None).
  { intros [Hfew|Hz].
    - now apply pearson_few.
    - now apply pearson_zero_variance. }
  assert (Hroot : forall r, pearson sqrt xs ys = Some r ->
                    0 < sqrt (ssqdm_x obs * ssqdm_y obs) /\
                    r * sqrt (ssqdm_x obs * ssqdm_y obs) == codeviation obs).
  { intros r E.
    assert (Hp : 0 < ssqdm_x obs * ssqdm_y obs).
    { destruct (Qlt_le_dec 0 (ssqdm_x obs * ssqdm_y obs)) as [Hlt|Hle]; [exact Hlt|].
      exfalso.
      assert (Hz : ssqdm_x obs * ssqdm_y obs == 0).
      { apply Qle_antisym; [exact Hle|]. now apply Qmult_le_0_compat. }
      apply Qmult_integral in Hz. rewrite Hback in E; [discriminate|]. tauto. }
    pose proof (Hpos _ Hp) as Hd. split; [exact Hd|].
    unfold pearson in E. fold obs in E.
    destruct (length obs <? 1)%nat; [discriminate|].
    destruct (Qeq_bool (sqrt (ssqdm_x obs * ssqdm_y obs)) 0); [discriminate|].
    injection E as <-. field. lra. }
  split; [|exact Hroot].
  split; [|exact Hback].
  intro E. destruct (Nat.lt_ge_cases (length obs) 2) as [Hfew|Hmany]; [now left|].
  right. unfold pearson in E. fold obs in E.
  replace (length obs <? 1)%nat with false in E
    by (symmetry; apply Nat.ltb_ge; lia).
  destruct (Qeq_bool (sqrt (ssqdm_x obs * ssqdm_y obs)) 0) eqn:Ez; [|discriminate].
  apply Qeq_bool_iff in Ez.
  destruct (Qlt_le_dec 0 (ssqdm_x obs * ssqdm_y obs)) as [Hlt|Hle].
  - pose proof (Hpos _ Hlt). lra.
  - apply Qmult_integral. apply Qle_antisym; [exact Hle|].
    now apply Qmult_le_0_compat.
Qed.

Lemma feature_column_eq (i : nat) (df : table) :
  feature_column i df = map (feature i) df.
Proof. reflexivity. Qed.




(* ------------------------------------------------------------------ *)
(** ** More on the filter *)

Lemma filter_subseq_implied {A} (p q : A -> bool) (l : list A) :
  (forall x, p x = true -> q x = true) -> subseq (filter p l) (filter q l).
Proof.
  intro Hpq. induction l as [|x l IH]; simpl; [constructor|].
  destruct (p x) eqn:Ep.
  - rewrite (Hpq x Ep). now constructor.
  - destruct (q x); [now constructor | exact IH].
Qed.

Lemma filter_swap {A} (p q : A -> bool) (l : list A) :
  filter p (filter q l) = filter q (filter p l).
Proof.
  induction l as [|x l IH]; simpl; [reflexivity|].
  destruct (q x) eqn:Eq, (p x) eqn:Ep; simpl; rewrite ?Eq, ?Ep, IH; reflexivity.
Qed.

Lemma date_le_trans (a b c : date) : date_le a b -> date_le b c -> date_le a c.
Proof. unfold date_le. lia. Qed.

Lemma date_le_refl (a : date) : date_le a a.
Proof. unfold date_le. lia. Qed.

Lemma date_le_antisym (a b : date) : date_le a b -> date_le b a -> a = b.
Proof.
  destruct a as [y1 m1 d1], b as [y2 m2 d2]. unfold date_le; simpl.
  intros H1 H2. assert (y1 = y2 /\ m1 = m2 /\ d1 = d2) as (-> & -> & ->) by lia.
  reflexivity.
Qed.

Lemma date_leb_false (a b : date) : date_leb a b = false -> date_le b a.
Proof.
  intro E. destruct (date_leb b a) eqn:E'; [now apply date_leb_le|].
  exfalso. revert E E'. unfold date_leb, date_compare.
  destruct (Z.compare_spec (year a) (year b));
    destruct (Z.compare_spec (year b) (year a)); try lia; try discriminate;
    destruct (Z.compare_spec (month a) (month b));
    destruct (Z.compare_spec (month b) (month a)); try lia; try discriminate;
    destruct (Z.compare_spec (day a) (day b));
    destruct (Z.compare_spec (day b) (day a)); try lia; discriminate.
Qed.

(** X1.  The filter raises [IndexError] exactly when the date picker hands
    over fewer than two dates (a range still being picked); with two or more
    it returns a table, and only the first two dates count. *)
Theorem filtered_df_index_error (df : table) (R : list string) (date_range : list date) :
  (filtered_df df R date_range = Raised IndexError <-> (length date_range < 2)%nat) /\
  ((exists out, filtered_df df R date_range = Returned out) <->
   (2 <= length date_range)%nat) /\
  (forall lo hi rest, filtered_df df R (lo :: hi :: rest) = filtered_df df R [lo; hi]).
Proof.
  split; [|split].
  - destruct date_range as [|lo [|hi rest]].
    + split; [simpl; lia | reflexivity].
    + split; [simpl; lia | reflexivity].
    + rewrite filtered_df_eq. split; [discriminate | simpl; lia].
  - destruct date_range as [|lo [|hi rest]].
    + split; [intros [out E]; discriminate E | simpl; lia].
    + split; [intros [out E]; discriminate E | simpl; lia].
    + rewrite filtered_df_eq. split; [simpl; lia | eauto].
  - intros lo hi rest. now rewrite !filtered_df_eq.
Qed.

(** X2.  With no state selected the filter returns the table without rows,
    whatever the range: an empty selection does not mean "all states". *)
Theorem filtered_df_empty_selection (df : table) (lo hi : date) (rest : list date) :
  filtered_df df [] (lo :: hi :: rest) = Returned [].
Proof.
  rewrite filtered_df_eq. f_equal. apply filter_none.
  intro r. unfold keeps. now destruct (customer_state r).
Qed.

(** X3.  Selecting more states or widening the range only adds rows: the
    narrower result is embedded, in order, in the wider one. *)
Theorem filtered_df_monotone (df : table) (R R' : list string) (lo hi lo' hi' : date)
        (HR : incl R R') (Hlo : date_le lo' lo) (Hhi : date_le hi hi') :
  exists out out',
    filtered_df df R [lo; hi] = Returned out /\
    filtered_df df R' [lo'; hi'] = Returned out' /\
    subseq out out'.
Proof.
  exists (filter (keeps R lo hi) df), (filter (keeps R' lo' hi') df).
  rewrite !filtered_df_eq. split; [reflexivity|]. split; [reflexivity|].
  apply filter_subseq_implied. intros r Hk.
  apply keeps_spec in Hk. destruct Hk as [(s & Hs & Hin) (t & Ht & H1 & H2)].
  apply keeps_spec. split.
  - exists s. split; [exact Hs | now apply HR].
  - exists t. split; [exact Ht|]. split.
    + exact (date_le_trans _ _ _ Hlo H1).
    + exact (date_le_trans _ _ _ H2 Hhi).
Qed.

(** Witness of X3: one state and January 2017 against two states and two
    years. *)
Lemma filtered_df_monotone_witness :
  incl ["SP"]%string ["SP"; "RJ"]%string /\
  date_le (mkDate 2016 1 1) (mkDate 2017 1 1) /\
  date_le (mkDate 2017 1 31) (mkDate 2017 12 31) /\
  exists out out',
    filtered_df sample_orders ["SP"]%string [mkDate 2017 1 1; mkDate 2017 1 31]
      = Returned out /\
    filtered_df sample_orders ["SP"; "RJ"]%string [mkDate 2016 1 1; mkDate 2017 12 31]
      = Returned out' /\
    subseq out out'.
Proof.
  assert (H1 : incl ["SP"]%string ["SP"; "RJ"]%string)
    by (intros x [<-|[]]; now left).
  assert (H2 : date_le (mkDate 2016 1 1) (mkDate 2017 1 1))
    by (unfold date_le; simpl; lia).
  assert (H3 : date_le (mkDate 2017 1 31) (mkDate 2017 12 31))
    by (unfold date_le; simpl; lia).
  split; [exact H1|]. split; [exact H2|]. split; [exact H3|].
  exact (filtered_df_monotone sample_orders _ _ _ _ _ _ H1 H2 H3).
Defined.

(** X4.  Filtering is idempotent, and two filters applied one after the
    other give the same table in either order. *)
Theorem filtered_df_compose (df : table) (R1 R2 : list string) (lo1 hi1 lo2 hi2 : date) :
  (x <- filtered_df df R1 [lo1; hi1] ;; filtered_df x R1 [lo1; hi1])
    = filtered_df df R1 [lo1; hi1] /\
  (x <- filtered_df df R1 [lo1; hi1] ;; filtered_df x R2 [lo2; hi2])
    = (x <- filtered_df df R2 [lo2; hi2] ;; filtered_df x R1 [lo1; hi1]).
Proof.
  rewrite !filtered_df_eq. simpl. rewrite !filtered_df_eq. split.
  - f_equal. apply filter_implied. auto.
  - f_equal. apply filter_swap.
Qed.

(* ------------------------------------------------------------------ *)
(** ** Distinct values *)

Lemma opt_eqb_eq (a b : option string) : opt_eqb a b = true <-> a = b.
Proof.
  destruct a as [x|], b as [y|]; simpl; try (split; congruence).
  rewrite String.eqb_eq. split; congruence.
Qed.

Lemma opt_eqb_refl (a : option string) : opt_eqb a a = true.
Proof. now apply opt_eqb_eq. Qed.

Lemma unique_In (c : option string) (col : list (option string)) :
  In c (unique col) <-> In c col.
Proof.
  induction col as [|d col IH]; simpl; [tauto|].
  rewrite filter_In, IH, negb_true_iff. split.
  - intros [E|[Hin _]]; auto.
  - intros [E|Hin]; [now left|].
    destruct (opt_eqb d c) eqn:E.
    + left. now apply opt_eqb_eq.
    + right. auto.
Qed.

Lemma unique_NoDup (col : list (option string)) : NoDup (unique col).
Proof.
  induction col as [|d col IH]; simpl; constructor.
  - intro Hin. apply filter_In in Hin. destruct Hin as [_ E].
    now rewrite opt_eqb_refl in E.
  - now apply NoDup_filter.
Qed.

Lemma unique_length (col : list (option string)) :
  (length (unique col) <= length col)%nat.
Proof.
  induction col as [|d col IH]; simpl; [lia|].
  pose proof (filter_length_le (fun e => negb (opt_eqb d e)) (unique col)). lia.
Qed.

Lemma filter_all {A} (p : A -> bool) (l : list A) :
  (forall x, In x l -> p x = true) -> filter p l = l.
Proof.
  induction l as [|x l IH]; intro Hall; simpl; [reflexivity|].
  rewrite (Hall x) by now left. f_equal. apply IH. intros y Hy. apply Hall. now right.
Qed.

(** A cell that is already in the column adds no distinct value; a new one
    adds one. *)
Lemma unique_cons_length (c : option string) (col : list (option string)) :
  length (unique (c :: col)) =
  if existsb (opt_eqb c) col then length (unique col) else S (length (unique col)).
Proof.
  simpl. destruct (existsb (opt_eqb c) col) eqn:E.
  - apply existsb_exists in E. destruct E as (d & Hd & E).
    apply opt_eqb_eq in E. subst d. apply (proj2 (unique_In c col)) in Hd.
    pose proof (unique_NoDup col) as Hnd.
    induction (unique col) as [|e l IH]; [contradiction|].
    simpl. inversion Hnd as [|? ? He Hl]; subst.
    destruct Hd as [->|Hd].
    + rewrite opt_eqb_refl. simpl. f_equal.
      rewrite filter_all; [reflexivity|].
      intros x Hx. apply negb_true_iff.
      destruct (opt_eqb c x) eqn:Ex; [|reflexivity].
      apply opt_eqb_eq in Ex. now subst.
    + destruct (opt_eqb c e) eqn:Ee.
      * apply opt_eqb_eq in Ee. now subst.
      * simpl. f_equal. now apply IH.
  - f_equal. f_equal. apply filter_all. intros x Hx. apply negb_true_iff.
    destruct (opt_eqb c x) eqn:Ex; [|reflexivity].
    exfalso. apply (proj1 (unique_In _ _)) in Hx.
    assert (existsb (opt_eqb c) col = true)
      by (apply existsb_exists; exists x; split; assumption).
    congruence.
Qed.

(** X5.  "Total Orders" counts the distinct order ids: the ids it counts are
    those of the table, each once; it never exceeds the number of rows; a
    further row of an order already in the table leaves it as it is, a row
    of a new order adds one. *)
Theorem total_orders_distinct (df : table) :
  NoDup (unique (map order_id df)) /\
  (forall c, In c (unique (map order_id df)) <-> exists r, In r df /\ order_id r = c) /\
  (total_orders df <= length df)%nat /\
  (forall r, (exists r', In r' df /\ order_id r' = order_id r) ->
             total_orders (r :: df) = total_orders df) /\
  (forall r, (forall r', In r' df -> order_id r' <> order_id r) ->
             total_orders (r :: df) = S (total_orders df)).
Proof.
  split; [apply unique_NoDup|].
  split.
  { intro c. rewrite unique_In, in_map_iff. split; intros (r & H1 & H2); eauto. }
  split.
  { unfold total_orders. pose proof (unique_length (map order_id df)).
    now rewrite length_map in *. }
  split.
  - intros r (r' & Hin & E). unfold total_orders. simpl map.
    rewrite unique_cons_length.
    replace (existsb _ _) with true; [reflexivity|].
    symmetry. apply existsb_exists. exists (order_id r'). split.
    + apply in_map_iff. eauto.
    + apply opt_eqb_eq. now symmetry.
  - intros r Hnew. unfold total_orders. simpl map.
    rewrite unique_cons_length.
    replace (existsb _ _) with false; [reflexivity|].
    symmetry. destruct (existsb _ _) eqn:E; [|reflexivity].
    apply existsb_exists in E. destruct E as (c & Hc & E).
    apply opt_eqb_eq in E. subst c. apply in_map_iff in Hc.
    destruct Hc as (r' & E & Hin). exfalso. exact (Hnew r' Hin E).
Qed.

(* ------------------------------------------------------------------ *)
(** ** Counting rows group by group *)

Lemma list_sum_add {A} (g h : A -> nat) (l : list A) :
  list_sum (map (fun k => g k + h k)%nat l) = (list_sum (map g l) + list_sum (map h l))%nat.
Proof. induction l as [|x l IH]; simpl; [reflexivity|]. rewrite IH. lia. Qed.

Lemma indicator_sum_none {K} (f : K -> bool) (ks : list K) :
  (forall k, In k ks -> f k = false) ->
  list_sum (map (fun k => if f k then 1 else 0)%nat ks) = 0%nat.
Proof.
  induction ks as [|k ks IH]; intro Hall; simpl; [reflexivity|].
  rewrite (Hall k) by now left. apply IH. intros x Hx. apply Hall. now right.
Qed.

(** A test that singles out one member of a list without repetitions holds
    of exactly one entry. *)
Lemma indicator_sum_one {K} (f : K -> bool) (ks : list K) (c : K) :
  NoDup ks -> In c ks -> (forall k, In k ks -> (f k = true <-> k = c)) ->
  list_sum (map (fun k => if f k then 1 else 0)%nat ks) = 1%nat.
Proof.
  induction 1 as [|k ks Hk Hnd IH]; intros Hin Hf; [contradiction|].
  simpl. destruct (f k) eqn:E.
  - apply Hf in E; [|now left]. subst k.
    rewrite indicator_sum_none; [reflexivity|].
    intros x Hx. destruct (f x) eqn:Ex; [|reflexivity].
    apply Hf in Ex; [|now right]. now subst.
  - destruct Hin as [->|Hin].
    + assert (f c = true) by (apply Hf; [now left | reflexivity]). congruence.
    + apply IH; [exact Hin|]. intros x Hx. apply Hf. now right.
Qed.

(** If every row passes the test of exactly one label when it passes [q],
    and of none otherwise, the rows under the labels add up to the rows
    passing [q]. *)
Lemma filter_length_partition {A K} (f : K -> A -> bool) (q : A -> bool)
      (ks : list K) (l : list A) :
  (forall a, In a l ->
     list_sum (map (fun k => if f k a then 1 else 0)%nat ks) = if q a then 1%nat else 0%nat) ->
  list_sum (map (fun k => length (filter (f k) l)) ks) = length (filter q l).
Proof.
  induction l as [|a l IH]; intro Hall; simpl.
  - clear Hall. induction ks as [|k ks IHk]; simpl; [reflexivity | exact IHk].
  - assert (E : map (fun k => length (if f k a then a :: filter (f k) l else filter (f k) l)) ks
               = map (fun k => (if f k a then 1 else 0) + length (filter (f k) l))%nat ks).
    { apply map_ext. intro k. now destruct (f k a). }
    rewrite E, list_sum_add, (Hall a) by now left.
    rewrite IH by (intros x Hx; apply Hall; now right).
    now destruct (q a).
Qed.

Lemma dropna_length_filter {A B} (f : A -> option B) (l : list A) :
  length (dropna (map f l))
  = length (filter (fun a => match f a with Some _ => true | None => false end) l).
Proof.
  induction l as [|a l IH]; simpl; [reflexivity|].
  destruct (f a); simpl; now rewrite IH.
Qed.

Lemma filter_filter_andb {A} (p q : A -> bool) (l : list A) :
  filter p (filter q l) = filter (fun a => q a && p a) l.
Proof.
  induction l as [|a l IH]; simpl; [reflexivity|].
  destruct (q a); simpl; [destruct (p a)|]; now rewrite IH.
Qed.

Section GroupCounting.
Context {K : Type} `{GroupKeyLaws K}.

(** Each row with a key passes the test of one group label, its own. *)
Lemma has_key_once (key : row -> option K) (df : table) (a : row) :
  In a df ->
  list_sum (map (fun k => if has_key key k a then 1 else 0)%nat (group_keys (map key df)))
  = match key a with Some _ => 1%nat | None => 0%nat end.
Proof.
  intro Hin. destruct (key a) as [c|] eqn:E.
  - apply (indicator_sum_one _ _ c).
    + apply group_keys_NoDup.
    + apply group_label. eauto.
    + intros k _. rewrite has_key_spec, E. split; congruence.
  - apply indicator_sum_none. intros k _. unfold has_key. now rewrite E.
Qed.

Lemma group_keys_unique_length (col : list (option K)) (u : list (option K)) :
  NoDup u -> (forall c, In c u <-> In c col) ->
  length (group_keys col) = length (dropna u).
Proof.
  intros Hnd Hu. apply Permutation_length, NoDup_Permutation.
  - apply group_keys_NoDup.
  - clear Hu. induction Hnd as [|[x|] l Hx Hl IH]; simpl; try constructor; auto.
    now rewrite dropna_In.
  - intro k. now rewrite group_keys_In, dropna_In, Hu.
Qed.

End GroupCounting.

Lemma NoDup_option_length {A} (l : list (option A)) :
  NoDup l ->
  (In None l -> length l = S (length (dropna l))) /\
  (~ In None l -> length l = length (dropna l)).
Proof.
  induction 1 as [|[x|] l Hx Hl [IH1 IH2]]; simpl.
  - split; [contradiction | reflexivity].
  - split.
    + intros [E|Hin]; [discriminate|]. now rewrite IH1.
    + intro Hn. rewrite IH2; [reflexivity|]. tauto.
  - split.
    + intros _. now rewrite IH2.
    + intro Hn. exfalso. apply Hn. now left.
Qed.

(* ------------------------------------------------------------------ *)
(** ** States covered, bars and buckets *)

Lemma state_delay_length (df : table) :
  length (state_delay df) = length (dropna (unique (map customer_state df))).
Proof.
  unfold state_delay. rewrite group_mean_eq, length_map.
  apply group_keys_unique_length; [apply unique_NoDup|].
  intro c. apply unique_In.
Qed.

(** X6.  The delay-by-state chart has one bar per state, the states strictly
    ascending.  "States Covered" is the number of bars when every row has a
    state, and one more when some row has none: the missing state counts as
    a state in the metric and gets no bar. *)
Theorem total_states_and_bars (df : table) :
  StronglySorted key_lt (map fst (state_delay df)) /\
  ((forall r, In r df -> has_state r = true) ->
   total_states df = length (state_delay df)) /\
  ((exists r, In r df /\ customer_state r = None) ->
   total_states df = S (length (state_delay df))).
Proof.
  split.
  { unfold state_delay. rewrite group_mean_eq, map_map. simpl. rewrite map_id.
    apply group_keys_sorted. }
  rewrite state_delay_length. unfold total_states.
  destruct (NoDup_option_length _ (unique_NoDup (map customer_state df))) as [H1 H2].
  split.
  - intro Hall. apply H2. intro Hin. apply (proj1 (unique_In _ _)) in Hin.
    apply in_map_iff in Hin. destruct Hin as (r & E & Hr).
    specialize (Hall r Hr). unfold has_state in Hall. now rewrite E in Hall.
  - intros (r & Hr & E). apply H1. apply unique_In, in_map_iff. eauto.
Qed.

Lemma isin_any_In (values : list (option string)) (c : option string) :
  isin_any values c = true <-> In c values.
Proof.
  unfold isin_any. rewrite existsb_exists. split.
  - intros (x & Hx & E). apply opt_eqb_eq in E. now subst.
  - intro Hin. exists c. split; [exact Hin | apply opt_eqb_refl].
Qed.

(** A selection of state names is the case without the missing value. *)
Lemma isin_any_strings (R : list string) (c : option string) :
  isin_any (map Some R) c = isin R c.
Proof.
  unfold isin_any, isin. induction R as [|s R IH]; simpl.
  - now destruct c.
  - rewrite IH. now destruct c.
Qed.

Lemma filtered_df_any_eq (df : table) (selection : list (option string))
      (lo hi : date) (rest : list date) :
  filtered_df_any df selection (lo :: hi :: rest)
  = Returned (filter (keeps_any selection lo hi) df).
Proof.
  unfold filtered_df_any. simpl.
  rewrite !mask_and_map, select_map. reflexivity.
Qed.

Lemma filtered_df_any_strings (df : table) (R : list string) (range : list date) :
  filtered_df_any df (map Some R) range = filtered_df df R range.
Proof.
  unfold filtered_df_any, filtered_df.
  rewrite (map_ext _ (fun r => isin R (customer_state r)))
    by (intro r; apply isin_any_strings).
  reflexivity.
Qed.

Lemma keeps_any_spec (selection : list (option string)) (lo hi : date) (r : row) :
  keeps_any selection lo hi r = true <->
  In (customer_state r) selection /\
  (exists t, order_purchase_timestamp r = Some t /\
             date_le lo (ts_date t) /\ date_le (ts_date t) hi).
Proof.
  unfold keeps_any. rewrite !andb_true_iff, isin_any_In.
  destruct (order_purchase_timestamp r) as [t|]; simpl.
  - unfold date_geb. rewrite !date_leb_le. split.
    + intros [[H1 H2] H3]. split; [assumption|]. exists t. auto.
    + intros [H1 (t' & Ht & H2 & H3)]. injection Ht as <-. auto.
  - split.
    + intros [[_ H] _]. discriminate.
    + intros [_ (t & Ht & _)]. discriminate.
Qed.

(** X7.  The state selector hands over a list of its options, and the
    missing state is an option when some row has none.  The filter lets
    through exactly the rows whose state, missing or not, is in that list
    and whose purchase date is in the range; every such row has a
    timestamp.  On the filtered table every bar of the delay-by-state chart
    is a selected state and "States Covered" is at most the number of
    selected options.  When the missing state is not selected, every row
    let through has a state and "States Covered" is the number of bars;
    when a row without a state gets through, the missing state was selected
    and "States Covered" is one more than the number of bars.  A selection
    of state names only is the filter of the claims. *)
Theorem filtered_df_states (df : table) (selection : list (option string)) (lo hi : date) :
  (forall R range, filtered_df_any df (map Some R) range = filtered_df df R range) /\
  exists out,
    filtered_df_any df selection [lo; hi] = Returned out /\
    (forall r, In r out <->
       In r df /\ In (customer_state r) selection /\
       exists t, order_purchase_timestamp r = Some t /\
                 date_le lo (ts_date t) /\ date_le (ts_date t) hi) /\
    (forall k m, In (k, m) (state_delay out) -> In (Some k) selection) /\
    (total_states out <= length selection)%nat /\
    (~ In None selection ->
     (forall r, In r out -> has_state r = true) /\
     total_states out = length (state_delay out)) /\
    ((exists r, In r out /\ customer_state r = None) ->
     In None selection /\ total_states out = S (length (state_delay out))).
Proof.
  split; [intros R range; apply filtered_df_any_strings|].
  exists (filter (keeps_any selection lo hi) df). split; [apply filtered_df_any_eq|].
  set (out := filter (keeps_any selection lo hi) df).
  assert (Hrow : forall r, In r out <->
       In r df /\ In (customer_state r) selection /\
       exists t, order_purchase_timestamp r = Some t /\
                 date_le lo (ts_date t) /\ date_le (ts_date t) hi).
  { intro r. unfold out. rewrite filter_In, keeps_any_spec. tauto. }
  assert (Hsel : forall c, In c (unique (map customer_state out)) -> In c selection).
  { intros c Hc. apply (proj1 (unique_In _ _)) in Hc. apply in_map_iff in Hc.
    destruct Hc as (r & <- & Hr). now apply Hrow in Hr. }
  destruct (NoDup_option_length _ (unique_NoDup (map customer_state out))) as [H1 H2].
  split; [exact Hrow|].
  split.
  { intros k m Hk. apply group_mean_In in Hk. destruct Hk as [(r & Hr & E) _].
    rewrite <- E. now apply Hrow in Hr. }
  split.
  { unfold total_states. apply NoDup_incl_length; [apply unique_NoDup | exact Hsel]. }
  split.
  - intro Hnone.
    assert (Hst : forall r, In r out -> has_state r = true).
    { intros r Hr. apply Hrow in Hr. destruct Hr as (_ & Hin & _).
      unfold has_state. destruct (customer_state r); [reflexivity|]. contradiction. }
    split; [exact Hst|].
    rewrite state_delay_length. unfold total_states. apply H2.
    intro Hin. apply Hnone. now apply Hsel.
  - intros (r & Hr & E). split.
    + apply Hrow in Hr. destruct Hr as (_ & Hin & _). now rewrite E in Hin.
    + rewrite state_delay_length. unfold total_states. apply H1.
      apply unique_In, in_map_iff. eauto.
Qed.

(** The orders with a stateless one under X7: the preselection is SP, RJ
    and the missing state; all three rows get through, "States Covered" is
    3 and the chart has the two bars RJ and SP.  With the two state names
    alone the stateless row stays out. *)
Lemma filtered_df_states_witness :
  default_states stateless_orders = [Some "SP"; Some "RJ"; None]%string /\
  filtered_df_any stateless_orders (default_states stateless_orders)
                  [mkDate 2018 8 1; mkDate 2018 8 31] = Returned stateless_orders /\
  total_states stateless_orders = 3%nat /\
  map fst (state_delay stateless_orders) = ["RJ"; "SP"]%string /\
  filtered_df stateless_orders ["SP"; "RJ"]%string [mkDate 2018 8 1; mkDate 2018 8 31]
    = Returned (firstn 2 stateless_orders) /\
  filtered_df_any stateless_orders [Some "SP"; Some "RJ"]%string
                  [mkDate 2018 8 1; mkDate 2018 8 31]
    = filtered_df stateless_orders ["SP"; "RJ"]%string [mkDate 2018 8 1; mkDate 2018 8 31].
Proof.
  split; [reflexivity|]. split; [reflexivity|]. split; [reflexivity|].
  split; [reflexivity|]. split; [reflexivity|].
  exact (proj1 (filtered_df_states stateless_orders (default_states stateless_orders)
                  (mkDate 2018 8 1) (mkDate 2018 8 31))
           ["SP"; "RJ"]%string [mkDate 2018 8 1; mkDate 2018 8 31]).
Defined.

Lemma date_le_month (a b : date) :
  date_le a b -> period_le (month_of_date a) (month_of_date b).
Proof.
  unfold date_le, period_le, period_lt, month_of_date. simpl. intro Hle.
  destruct (Z.eq_dec (year a) (year b)) as [Ey|Ny];
    destruct (Z.eq_dec (month a) (month b)) as [Em|Nm].
  - right. congruence.
  - left. lia.
  - left. lia.
  - left. lia.
Qed.

(** X8.  On a filtered table every point of the monthly trend is a month of
    the selected range: its label is that of a month between the month of
    the start date and the month of the end date. *)
Theorem monthly_trend_within_range (df : table) (R : list string) (lo hi : date) :
  exists out,
    filtered_df df R [lo; hi] = Returned out /\
    forall label m, In (label, m) (monthly_trend out) ->
      exists p, label = period_str p /\
                period_le (month_of_date lo) p /\ period_le p (month_of_date hi).
Proof.
  exists (filter (keeps R lo hi) df). split; [apply filtered_df_eq|].
  intros label m Hin. unfold monthly_trend in Hin.
  apply in_map_iff in Hin. destruct Hin as ([p m'] & E & Hin).
  injection E as <- <-. exists p. split; [reflexivity|].
  apply group_mean_In in Hin. destruct Hin as [(r & Hr & Ep) _].
  apply filter_In in Hr. destruct Hr as [_ Hk].
  apply keeps_spec in Hk. destruct Hk as [_ (t & Ht & H1 & H2)].
  rewrite Ht in Ep. simpl in Ep. injection Ep as <-.
  split; [exact (date_le_month _ _ H1) | exact (date_le_month _ _ H2)].
Qed.

(** X9.  The counts of the weight-category view add up to the number of rows
    that have both a weight category and an order id: the pie chart built
    on them shares out those rows, each counted once. *)
Theorem weight_performance_total (df : table) :
  list_sum (map snd (weight_performance df))
  = rows_where (fun r => has_weight_category r && has_order_id r) df.
Proof.
  unfold weight_performance, groupby, rows_where, count. rewrite !map_map. simpl.
  rewrite (map_ext _ (fun k => length (filter
             (fun r => has_key weight_category k r && has_order_id r) df))).
  - apply filter_length_partition. intros a Hin.
    pose proof (has_key_once weight_category df a Hin) as Ho.
    unfold has_weight_category, has_order_id.
    destruct (order_id a).
    + rewrite andb_true_r.
      rewrite (map_ext _ (fun k => if has_key weight_category k a then 1%nat else 0%nat))
        by (intro k; now rewrite andb_true_r).
      rewrite Ho. now destruct (weight_category a).
    + rewrite andb_false_r. apply indicator_sum_none. intros k _. apply andb_false_r.
  - intro k. rewrite dropna_length_filter, filter_filter_andb. reflexivity.
Qed.

(* ------------------------------------------------------------------ *)
(** ** Where a mean can lie *)

Lemma Qsum_lower (x : Q) (l : list Q) :
  (forall y, In y l -> x <= y) -> Qlen l * x <= Qsum l.
Proof.
  induction l as [|a l IH]; intro Hall.
  - unfold Qlen. simpl. rewrite Qmult_0_l. lra.
  - rewrite Qlen_cons. simpl.
    assert (x <= a) by (apply Hall; now left).
    assert (Qlen l * x <= Qsum l) by (apply IH; intros y Hy; apply Hall; now right).
    lra.
Qed.

Lemma Qsum_upper (x : Q) (l : list Q) :
  (forall y, In y l -> y <= x) -> Qsum l <= Qlen l * x.
Proof.
  induction l as [|a l IH]; intro Hall.
  - unfold Qlen. simpl. rewrite Qmult_0_l. lra.
  - rewrite Qlen_cons. simpl.
    assert (a <= x) by (apply Hall; now left).
    assert (Qsum l <= Qlen l * x) by (apply IH; intros y Hy; apply Hall; now right).
    lra.
Qed.

Lemma least_element (a : Q) (l : list Q) :
  exists x, In x (a :: l) /\ forall y, In y (a :: l) -> x <= y.
Proof.
  revert a. induction l as [|b l IH]; intro a.
  - exists a. split; [now left|]. intros y [<-|[]]. lra.
  - destruct (IH b) as (x & Hx & Hmin).
    destruct (Qlt_le_dec a x) as [Hlt|Hle].
    + exists a. split; [now left|].
      intros y [<-|Hy]; [lra|]. specialize (Hmin y Hy). lra.
    + exists x. split; [now right|].
      intros y [<-|Hy]; [exact Hle | now apply Hmin].
Qed.

Lemma greatest_element (a : Q) (l : list Q) :
  exists x, In x (a :: l) /\ forall y, In y (a :: l) -> y <= x.
Proof.
  revert a. induction l as [|b l IH]; intro a.
  - exists a. split; [now left|]. intros y [<-|[]]. lra.
  - destruct (IH b) as (x & Hx & Hmax).
    destruct (Qlt_le_dec x a) as [Hlt|Hle].
    + exists a. split; [now left|].
      intros y [<-|Hy]; [lra|]. specialize (Hmax y Hy). lra.
    + exists x. split; [now right|].
      intros y [<-|Hy]; [exact Hle | now apply Hmax].
Qed.

(** A mean lies between two of the values it averages. *)
Lemma mean_of_between (xs : list Q) (m : Q) :
  mean_of xs = Some m -> exists x y, In x xs /\ In y xs /\ x <= m <= y.
Proof.
  destruct xs as [|a l]; [discriminate|]. intro E. injection E as <-.
  destruct (least_element a l) as (x & Hx & Hmin).
  destruct (greatest_element a l) as (y & Hy & Hmax).
  exists x, y. split; [exact Hx|]. split; [exact Hy|].
  pose proof (Qlen_pos a l) as Hn.
  pose proof (Qsum_lower x (a :: l) Hmin).
  pose proof (Qsum_upper y (a :: l) Hmax).
  split.
  - apply Qle_shift_div_l; [exact Hn|]. now rewrite Qmult_comm.
  - apply Qle_shift_div_r; [exact Hn|]. now rewrite Qmult_comm.
Qed.

(** X10.  Rounding and overflow aside, a mean the dashboard shows lies
    between two delays it averages: the average delay between the delays of
    two late rows, the bar of a state between the delays of two rows of that
    state.  (In float64 the computed mean can leave that interval by a
    rounding error, or be infinite when the sum overflows.) *)
Theorem shown_means_between (df : table) :
  (forall m, avg_delay df = Some m ->
     exists r1 r2 d1 d2,
       In r1 df /\ In r2 df /\
       delivery_delay r1 = Some d1 /\ delivery_delay r2 = Some d2 /\
       0 < d1 /\ d1 <= m <= d2) /\
  (forall k m, In (k, Some m) (state_delay df) ->
     exists r1 r2 d1 d2,
       In r1 df /\ In r2 df /\
       customer_state r1 = Some k /\ customer_state r2 = Some k /\
       delivery_delay r1 = Some d1 /\ delivery_delay r2 = Some d2 /\
       d1 <= m <= d2).
Proof.
  split.
  - intros m E. rewrite avg_delay_eq in E.
    apply mean_of_between in E. destruct E as (d1 & d2 & H1 & H2 & Hb).
    apply delays_In in H1, H2.
    destruct H1 as (r1 & Hr1 & E1), H2 as (r2 & Hr2 & E2).
    apply filter_In in Hr1, Hr2. destruct Hr1 as [Hr1 L1], Hr2 as [Hr2 _].
    exists r1, r2, d1, d2. repeat (split; [assumption|]).
    split; [|exact Hb].
    unfold is_late in L1. apply cell_gt_spec in L1.
    destruct L1 as (v & Ev & Hv). congruence.
  - intros k m Hin. apply group_mean_In in Hin. destruct Hin as [_ E].
    symmetry in E. apply mean_of_between in E.
    destruct E as (d1 & d2 & H1 & H2 & Hb).
    apply delays_In in H1, H2.
    destruct H1 as (r1 & Hr1 & E1), H2 as (r2 & Hr2 & E2).
    apply rows_with_In in Hr1, Hr2. destruct Hr1 as [Hr1 K1], Hr2 as [Hr2 K2].
    exists r1, r2, d1, d2. repeat (split; [assumption|]). exact Hb.
Qed.

Lemma Qlen_le {A} (l1 l2 : list A) : (length l1 <= length l2)%nat -> Qlen l1 <= Qlen l2.
Proof. intro Hle. unfold Qlen. rewrite <- Zle_Qle. lia. Qed.

(** X11.  The on-time percentage is a number between 0 and 100 whenever the
    table has a row, and is NaN only for the table without rows. *)
Theorem on_time_percentage_range (df : table) :
  match on_time_percentage df with
  | Some p => 0 <= p <= 100 /\ df <> []
  | None => df = []
  end.
Proof.
  unfold on_time_percentage, bool_mean.
  destruct df as [|r df]; [reflexivity|].
  pose proof (Qsum_indicator is_on_time (r :: df)) as Hs.
  unfold is_on_time in Hs.
  set (col := map _ (map _ (r :: df))) in *.
  assert (Hl : Qlen col = Qlen (r :: df)) by (unfold col; now rewrite !Qlen_map).
  destruct col as [|b col'] eqn:Ec; [discriminate|].
  simpl. rewrite Hs, Hl.
  pose proof (Qlen_pos r df) as Hn.
  pose proof (Qlen_nonneg (filter (fun r0 => cell_eqb (delivery_status r0) "On Time") (r :: df))) as H0.
  pose proof (Qlen_le _ _ (filter_length_le
                (fun r0 => cell_eqb (delivery_status r0) "On Time") (r :: df))) as H1.
  set (a := Qlen (filter _ _)) in *. set (n := Qlen (r :: df)) in *.
  split; [|discriminate].
  assert (Hq : 0 <= a / n <= 1).
  { split.
    - apply Qle_shift_div_l; [exact Hn | lra].
    - apply Qle_shift_div_r; [exact Hn | lra]. }
  lra.
Qed.

(* ------------------------------------------------------------------ *)
(** ** Tables without a recorded delay *)

Lemma delays_none (rows : table) :
  (forall r, In r rows -> delivery_delay r = None) -> delays rows = [].
Proof.
  unfold delays. induction rows as [|r rows IH]; intro Hall; simpl; [reflexivity|].
  rewrite (Hall r) by now left. apply IH. intros x Hx. apply Hall. now right.
Qed.

(** X12.  When no row has a delay on record, no view raises and every mean
    is NaN: the average delay, each bar by state, each listed category, each
    weight category, each month and each weekday. *)
Theorem no_delay_no_mean (sort : sorter) (Hsort : sorting_routine sort) (df : table)
        (Hnone : forall r, In r df -> delivery_delay r = None) :
  avg_delay df = None /\
  (forall k m, In (k, m) (state_delay df) -> m = None) /\
  (forall k m, In (k, m) (top_delayed sort df) -> m = None) /\
  (forall k m c, In (k, m, c) (weight_performance df) -> m = None) /\
  (forall l m, In (l, m) (monthly_trend df) -> m = None) /\
  (forall d m, In (d, m) (weekday_perf df) -> m = None).
Proof.
  assert (Hsub : forall p : row -> bool, delays (filter p df) = []).
  { intro p. apply delays_none. intros r Hr. apply filter_In in Hr. now apply Hnone. }
  split; [now rewrite avg_delay_eq, Hsub|].
  split.
  { intros k m Hin. apply group_mean_In in Hin. destruct Hin as [_ ->].
    unfold rows_with. now rewrite Hsub. }
  split.
  { intros k m Hin. unfold top_delayed in Hin. apply head_In in Hin.
    apply (sort_values_desc_In _ _ _ _ Hsort) in Hin.
    apply group_mean_In in Hin. destruct Hin as [_ ->].
    unfold rows_with. now rewrite Hsub. }
  split.
  { intros k m c Hin. unfold weight_performance, groupby in Hin.
    rewrite map_map in Hin. apply in_map_iff in Hin.
    destruct Hin as (k' & E & _). simpl in E. injection E as _ <- _.
    unfold mean. fold (delays (filter (has_key weight_category k') df)).
    now rewrite Hsub. }
  split.
  { intros l m Hin. unfold monthly_trend in Hin. apply in_map_iff in Hin.
    destruct Hin as ([p m'] & E & Hin). injection E as _ <-.
    apply group_mean_In in Hin. destruct Hin as [_ ->].
    unfold rows_with. now rewrite Hsub. }
  intros d m Hin. unfold weekday_perf in Hin. rewrite reindex_group_mean in Hin.
  apply in_map_iff in Hin. destruct Hin as (d' & E & _). injection E as _ <-.
  unfold rows_with. now rewrite Hsub.
Qed.

(** Witness of X12: the two undelivered orders. *)
Lemma no_delay_no_mean_witness :
  sorting_routine insertion_sort /\
  (forall r, In r undelivered_orders -> delivery_delay r = None) /\
  avg_delay undelivered_orders = None /\
  (forall d m, In (d, m) (weekday_perf undelivered_orders) -> m = None).
Proof.
  assert (H : forall r, In r undelivered_orders -> delivery_delay r = None).
  { intros r Hin. simpl in Hin.
    repeat (destruct Hin as [<-|Hin]; [reflexivity|]). contradiction. }
  split; [exact insertion_sort_routine|]. split; [exact H|].
  pose proof (no_delay_no_mean insertion_sort insertion_sort_routine
                undelivered_orders H) as (H1 & _ & _ & _ & _ & H6).
  split; [exact H1 | exact H6].
Defined.

(* ------------------------------------------------------------------ *)
(** ** Status distribution *)

Lemma list_sum_perm (l l' : list nat) : Permutation l l' -> list_sum l = list_sum l'.
Proof. induction 1; simpl; lia. Qed.

Lemma count_asc_trans : Relations_1.Transitive count_asc.
Proof. intros a b c. unfold count_asc. lia. Qed.

Lemma count_sorted_perm (sort : count_sorter) (l : list (string * nat)) :
  count_sorting_routine sort -> Permutation (rev (sort (rev l))) l.
Proof.
  intro Hsort.
  rewrite <- Permutation_rev, (proj1 (Hsort _)), <- Permutation_rev. reflexivity.
Qed.

Lemma insert_count_perm (e : string * nat) (l : list (string * nat)) :
  Permutation (insert_count e l) (e :: l).
Proof.
  induction l as [|h t IH]; simpl; [reflexivity|].
  destruct (snd e <=? snd h)%nat; [reflexivity|].
  rewrite IH. apply perm_swap.
Qed.

Lemma insert_count_sorted (e : string * nat) (l : list (string * nat)) :
  Sorted count_asc l -> Sorted count_asc (insert_count e l).
Proof.
  induction 1 as [|h t Hs IH Hh]; simpl; [repeat constructor|].
  destruct (snd e <=? snd h)%nat eqn:E.
  - apply Nat.leb_le in E. repeat constructor; assumption.
  - apply Nat.leb_gt in E.
    constructor; [exact IH|].
    destruct t as [|h' t']; simpl.
    + constructor. unfold count_asc. lia.
    + destruct (snd e <=? snd h')%nat; constructor;
        [unfold count_asc; lia | now inversion Hh].
Qed.

Lemma insertion_sort_counts_routine : count_sorting_routine insertion_sort_counts.
Proof.
  intro l. unfold insertion_sort_counts. induction l as [|e l [IHp IHs]]; simpl.
  - split; constructor.
  - split.
    + rewrite insert_count_perm. now constructor.
    + now apply insert_count_sorted.
Qed.

Lemma NoDup_dropna {A} (l : list (option A)) : NoDup l -> NoDup (dropna l).
Proof.
  induction 1 as [|[x|] l Hx Hl IH]; simpl; try constructor; auto.
  now rewrite dropna_In.
Qed.

Lemma occurrences_status (s : string) (df : table) :
  occurrences (Some s) (map delivery_status df)
  = rows_where (fun r => cell_eqb (delivery_status r) s) df.
Proof.
  unfold occurrences, rows_where. induction df as [|r df IH]; simpl; [reflexivity|].
  destruct (delivery_status r) as [x|]; simpl; [|exact IH].
  rewrite (String.eqb_sym s x). destruct (String.eqb x s); simpl; now rewrite IH.
Qed.

(** The tallies of the distinct present values add up to the number of
    present cells. *)
Lemma tally_total (col : list (option string)) :
  list_sum (map (fun s => occurrences (Some s) col) (dropna (unique col)))
  = length (dropna col).
Proof.
  unfold occurrences.
  rewrite (filter_length_partition (fun s => opt_eqb (Some s))
             (fun c => match c with Some _ => true | None => false end)).
  - clear. induction col as [|[x|] col IH]; simpl; now rewrite ?IH.
  - intros [x|] Hin.
    + apply (indicator_sum_one _ _ x).
      * apply NoDup_dropna, unique_NoDup.
      * now apply dropna_In, unique_In.
      * intros k _. rewrite opt_eqb_eq. split; congruence.
    + apply indicator_sum_none. reflexivity.
Qed.

(** X13.  The status distribution lists each status some row carries once,
    with the number of rows carrying it, in descending order of that
    number; a status no row carries is not listed, so no count is 0, and
    the counts add up to the number of rows that have a status. *)
Theorem status_dist_counts (sort : count_sorter) (Hsort : count_sorting_routine sort)
        (df : table) :
  NoDup (map fst (status_dist sort df)) /\
  (forall s n, In (s, n) (status_dist sort df) <->
     (exists r, In r df /\ delivery_status r = Some s) /\
     n = rows_where (fun r => cell_eqb (delivery_status r) s) df) /\
  (forall s n, In (s, n) (status_dist sort df) -> (1 <= n)%nat) /\
  StronglySorted count_desc (status_dist sort df) /\
  list_sum (map snd (status_dist sort df)) = rows_where has_status df.
Proof.
  unfold status_dist, value_counts.
  set (col := map delivery_status df).
  set (tally := map (fun s => (s, occurrences (Some s) col)) (dropna (unique col))).
  pose proof (count_sorted_perm sort tally Hsort) as Hp.
  assert (Hin : forall s n, In (s, n) (rev (sort (rev tally))) <->
     (exists r, In r df /\ delivery_status r = Some s) /\
     n = rows_where (fun r => cell_eqb (delivery_status r) s) df).
  { intros s n. split.
    - intro H. apply (Permutation_in _ Hp) in H. apply in_map_iff in H.
      destruct H as (s' & E & H). injection E as -> <-.
      apply dropna_In, unique_In, in_map_iff in H.
      destruct H as (r & E & Hr). split; [eauto | apply occurrences_status].
    - intros [(r & Hr & E) ->]. apply (Permutation_in _ (Permutation_sym Hp)).
      apply in_map_iff. exists s. split.
      + f_equal. apply occurrences_status.
      + apply dropna_In, unique_In, in_map_iff. eauto. }
  split.
  { apply (Permutation_NoDup (Permutation_map fst (Permutation_sym Hp))).
    unfold tally. rewrite map_map. simpl. rewrite map_id.
    apply NoDup_dropna, unique_NoDup. }
  split; [exact Hin|].
  split.
  { intros s n H. apply Hin in H. destruct H as [(r & Hr & E) ->].
    unfold rows_where.
    assert (Hf : In r (filter (fun r0 => cell_eqb (delivery_status r0) s) df)).
    { apply filter_In. split; [exact Hr|]. now apply cell_eqb_spec. }
    destruct (filter _ df); [contradiction | simpl; lia]. }
  split.
  { apply (StronglySorted_rev count_asc).
    apply Sorted_StronglySorted; [exact count_asc_trans | apply Hsort]. }
  rewrite (list_sum_perm _ _ (Permutation_map snd Hp)).
  unfold tally. rewrite map_map. simpl. rewrite tally_total.
  unfold col, rows_where, has_status. apply dropna_length_filter.
Qed.

(** Witness of X13: the sample orders, three rows "Delayed" and one
    "On Time". *)
Lemma status_dist_counts_witness :
  count_sorting_routine insertion_sort_counts /\
  status_dist insertion_sort_counts sample_orders
    = [("Delayed"%string, 3%nat); ("On Time"%string, 1%nat)] /\
  list_sum (map snd (status_dist insertion_sort_counts sample_orders))
    = rows_where has_status sample_orders.
Proof.
  split; [exact insertion_sort_counts_routine|].
  split; [reflexivity|].
  exact (proj2 (proj2 (proj2 (proj2
           (status_dist_counts insertion_sort_counts insertion_sort_counts_routine
              sample_orders))))).
Defined.

(* ------------------------------------------------------------------ *)
(** ** What the top 10 leaves out *)

Lemma StronglySorted_app_inv {A} (R : A -> A -> Prop) (l1 l2 : list A) :
  StronglySorted R (l1 ++ l2) -> forall x y, In x l1 -> In y l2 -> R x y.
Proof.
  induction l1 as [|a l1 IH]; intros Hs x y Hx Hy; [contradiction|].
  simpl in Hs. inversion Hs as [|? ? Hs' Hall]; subst.
  destruct Hx as [<-|Hx].
  - rewrite Forall_forall in Hall. apply Hall, in_or_app. now right.
  - now apply IH.
Qed.

Lemma notna_isna_perm {K} (s : list (K * option Q)) :
  Permutation (map ranked_entry (notna s) ++ isna s) s.
Proof.
  unfold isna. induction s as [|[k [v|]] s IH]; simpl.
  - constructor.
  - now constructor.
  - rewrite <- Permutation_middle. now constructor.
Qed.

Lemma NoDup_firstn {A} (n : nat) (l : list A) : NoDup l -> NoDup (firstn n l).
Proof.
  intro Hnd. rewrite <- (firstn_skipn n l) in Hnd.
  now apply NoDup_app_remove_r in Hnd.
Qed.

(** X14.  The top-10 view never lists a category twice, and a category with
    a mean that did not make the list has a mean no greater than that of any
    category with a mean on it. *)
Theorem top_delayed_dominates (sort : sorter) (Hsort : sorting_routine sort) (df : table) :
  NoDup (map fst (top_delayed sort df)) /\
  (forall k v k' v',
     In (k, Some v) (top_delayed sort df) ->
     In (k', Some v') (group_mean product_category_name df) ->
     ~ In (k', Some v') (top_delayed sort df) ->
     v' <= v).
Proof.
  unfold top_delayed, head, sort_values_desc.
  set (means := group_mean product_category_name df).
  set (ranked := rev (sort (rev (notna means)))).
  pose proof (sorted_perm sort (notna means) Hsort) as Hp. fold ranked in Hp.
  pose proof (sorted_desc sort (rev (notna means)) Hsort) as Hs. fold ranked in Hs.
  split.
  { rewrite <- firstn_map. apply NoDup_firstn.
    assert (Hq : Permutation (map ranked_entry ranked ++ isna means) means).
    { rewrite <- (notna_isna_perm means) at 2.
      apply Permutation_app_tail, Permutation_map, Hp. }
    apply (Permutation_NoDup (Permutation_map fst (Permutation_sym Hq))).
    unfold means. rewrite group_mean_eq, map_map. simpl. rewrite map_id.
    apply group_keys_NoDup. }
  intros k v k' v' Htop Hmean Hout.
  rewrite firstn_app, firstn_map in Htop, Hout.
  assert (Hk : In (k, v) (firstn 10 ranked)).
  { apply in_app_or in Htop. destruct Htop as [H|H].
    - apply in_map_iff in H. destruct H as ([k0 v0] & E & H).
      injection E as -> ->. exact H.
    - exfalso. apply (head_In _ _ (isna means)) in H.
      unfold isna in H. apply filter_In in H. destruct H as [_ H]. discriminate H. }
  assert (Hk' : In (k', v') (skipn 10 ranked)).
  { assert (H : In (k', v') ranked)
      by (apply (Permutation_in _ (Permutation_sym Hp)); now apply notna_In).
    rewrite <- (firstn_skipn 10 ranked) in H.
    apply in_app_or in H. destruct H as [H|H]; [|exact H].
    exfalso. apply Hout. apply in_or_app. left.
    apply in_map_iff. exists (k', v'). split; [reflexivity | exact H]. }
  rewrite <- (firstn_skipn 10 ranked) in Hs.
  exact (StronglySorted_app_inv desc _ _ Hs (k, v) (k', v') Hk Hk').
Qed.

(** Witness of X14: straight insertion on the wider batch of orders. *)
Lemma top_delayed_dominates_witness :
  sorting_routine insertion_sort /\
  NoDup (map fst (top_delayed insertion_sort wide_orders)).
Proof.
  split; [exact insertion_sort_routine|].
  exact (proj1 (top_delayed_dominates insertion_sort insertion_sort_routine wide_orders)).
Defined.

(* ------------------------------------------------------------------ *)
(** ** The presets of the sidebar *)

(** X15.  The state selector preselects at most five states, each a state
    of the table and none twice: the first ones in order of first
    appearance.  With five distinct states or fewer it preselects them
    all. *)
Theorem default_states_first_five (df : table) :
  (length (default_states df) <= 5)%nat /\
  NoDup (default_states df) /\
  (forall c, In c (default_states df) -> exists r, In r df /\ customer_state r = c) /\
  (exists rest, state_options df = default_states df ++ rest) /\
  ((total_states df <= 5)%nat ->
   forall r, In r df -> In (customer_state r) (default_states df)).
Proof.
  unfold default_states, state_options, total_states.
  split; [apply firstn_le_length|].
  split; [apply NoDup_firstn, unique_NoDup|].
  split.
  { intros c Hin. apply (head_In 5) in Hin. apply (proj1 (unique_In _ _)) in Hin.
    apply in_map_iff in Hin. destruct Hin as (r & E & Hr). eauto. }
  split.
  { exists (skipn 5 (unique (map customer_state df))).
    symmetry. apply firstn_skipn. }
  intros Hfew r Hr. rewrite firstn_all2 by exact Hfew.
  apply unique_In, in_map_iff. eauto.
Qed.

Lemma ts_leb_date (a b : timestamp) :
  ts_leb a b = true -> date_le (ts_date a) (ts_date b).
Proof.
  unfold ts_leb, ts_compare. intro E. apply date_leb_le. unfold date_leb.
  destruct (date_compare (ts_date a) (ts_date b)); congruence.
Qed.

Lemma date_compare_ge (a b : date) : date_compare a b <> Lt -> date_le b a.
Proof.
  unfold date_compare, date_le.
  destruct (Z.compare_spec (year a) (year b));
    destruct (Z.compare_spec (month a) (month b));
    destruct (Z.compare_spec (day a) (day b));
    intro Hc; try lia; now exfalso.
Qed.

Lemma ts_leb_false_date (a b : timestamp) :
  ts_leb a b = false -> date_le (ts_date b) (ts_date a).
Proof.
  unfold ts_leb, ts_compare. intro E. apply date_compare_ge.
  destruct (date_compare (ts_date a) (ts_date b)); discriminate.
Qed.

Lemma ts_min_of_spec (t : timestamp) (l : list timestamp) :
  In (ts_min_of t l) (t :: l) /\
  forall x, In x (t :: l) -> date_le (ts_date (ts_min_of t l)) (ts_date x).
Proof.
  revert t. induction l as [|h l IH]; intro t; simpl.
  - split; [now left|]. intros x [<-|[]]. apply date_le_refl.
  - destruct (IH (if ts_leb t h then t else h)) as [Hin Hle]. split.
    + destruct Hin as [E|Hin]; [|now right; right].
      rewrite <- E. destruct (ts_leb t h); [now left | right; now left].
    + assert (Ht : date_le (ts_date (if ts_leb t h then t else h)) (ts_date t) /\
                   date_le (ts_date (if ts_leb t h then t else h)) (ts_date h)).
      { destruct (ts_leb t h) eqn:E.
        - split; [apply date_le_refl | now apply ts_leb_date].
        - split; [now apply ts_leb_false_date | apply date_le_refl]. }
      pose proof (Hle _ (or_introl eq_refl)) as H0.
      intros x [<-|[<-|Hx]].
      * exact (date_le_trans _ _ _ H0 (proj1 Ht)).
      * exact (date_le_trans _ _ _ H0 (proj2 Ht)).
      * apply Hle. now right.
Qed.

Lemma ts_max_of_spec (t : timestamp) (l : list timestamp) :
  In (ts_max_of t l) (t :: l) /\
  forall x, In x (t :: l) -> date_le (ts_date x) (ts_date (ts_max_of t l)).
Proof.
  revert t. induction l as [|h l IH]; intro t; simpl.
  - split; [now left|]. intros x [<-|[]]. apply date_le_refl.
  - destruct (IH (if ts_leb h t then t else h)) as [Hin Hle]. split.
    + destruct Hin as [E|Hin]; [|now right; right].
      rewrite <- E. destruct (ts_leb h t); [now left | right; now left].
    + assert (Ht : date_le (ts_date t) (ts_date (if ts_leb h t then t else h)) /\
                   date_le (ts_date h) (ts_date (if ts_leb h t then t else h))).
      { destruct (ts_leb h t) eqn:E.
        - split; [apply date_le_refl | now apply ts_leb_date].
        - split; [now apply ts_leb_false_date | apply date_le_refl]. }
      pose proof (Hle _ (or_introl eq_refl)) as H0.
      intros x [<-|[<-|Hx]].
      * exact (date_le_trans _ _ _ (proj1 Ht) H0).
      * exact (date_le_trans _ _ _ (proj2 Ht) H0).
      * apply Hle. now right.
Qed.

(** X16.  The date picker is preset to the dates of the earliest and the
    latest purchase of the table; with that range the filter drops no row
    for its date: it keeps every row that has a timestamp and a selected
    state.  There is no preset only when no row has a timestamp. *)
Theorem default_date_range_keeps_all (df : table) (R : list string) :
  match default_date_range df with
  | Some range =>
      exists lo hi,
        range = [lo; hi] /\ date_le lo hi /\
        (exists r t, In r df /\ order_purchase_timestamp r = Some t /\ ts_date t = lo) /\
        (exists r t, In r df /\ order_purchase_timestamp r = Some t /\ ts_date t = hi) /\
        filtered_df df R range
          = Returned (filter (fun r => isin R (customer_state r) && has_timestamp r) df)
  | None => forall r, In r df -> order_purchase_timestamp r = None
  end.
Proof.
  unfold default_date_range, ts_series_min, ts_series_max.
  destruct (dropna (map order_purchase_timestamp df)) as [|t l] eqn:E.
  - intros r Hr. destruct (order_purchase_timestamp r) as [x|] eqn:Ex; [|reflexivity].
    assert (Hin : In x (dropna (map order_purchase_timestamp df)))
      by (apply dropna_In, in_map_iff; eauto).
    rewrite E in Hin. contradiction.
  - destruct (ts_min_of_spec t l) as [Hmin Hlo], (ts_max_of_spec t l) as [Hmax Hhi].
    assert (Hrow : forall x, In x (t :: l) ->
                     exists r, In r df /\ order_purchase_timestamp r = Some x).
    { intros x Hx. rewrite <- E in Hx. apply dropna_In, in_map_iff in Hx.
      destruct Hx as (r & Er & Hr). eauto. }
    exists (ts_date (ts_min_of t l)), (ts_date (ts_max_of t l)).
    split; [reflexivity|].
    split.
    { exact (date_le_trans _ _ _ (Hlo t (or_introl eq_refl)) (Hhi t (or_introl eq_refl))). }
    split.
    { destruct (Hrow _ Hmin) as (r & Hr & Er). exists r, (ts_min_of t l). auto. }
    split.
    { destruct (Hrow _ Hmax) as (r & Hr & Er). exists r, (ts_max_of t l). auto. }
    rewrite filtered_df_eq. f_equal. apply filter_ext_in. intros r Hr.
    unfold keeps, has_timestamp. rewrite <- andb_assoc. f_equal.
    destruct (order_purchase_timestamp r) as [x|] eqn:Ex; simpl; [|reflexivity].
    assert (Hx : In x (t :: l))
      by (rewrite <- E; apply dropna_In, in_map_iff; eauto).
    unfold date_geb.
    rewrite (proj2 (date_leb_le _ _) (Hlo x Hx)), (proj2 (date_leb_le _ _) (Hhi x Hx)).
    reflexivity.
Qed.

(* ------------------------------------------------------------------ *)
(** ** Correlation on very small tables *)

Lemma pairwise_complete_length (xs ys : list (option Q)) :
  (length (pairwise_complete xs ys) <= length xs)%nat.
Proof.
  revert ys. induction xs as [|[x|] xs IH]; intros [|[y|] ys]; simpl;
    try lia; specialize (IH ys); lia.
Qed.

(** X17.  On a table of fewer than two rows the correlation matrix holds
    NaN in every cell, the diagonal included, and raises nothing. *)
Theorem corr_matrix_small_table (sqrt : Q -> Q) (Hsqrt : square_root sqrt) (df : table)
        (Hsmall : (length df < 2)%nat) :
  forall i j, entry (corr_matrix sqrt df) i j = None.
Proof.
  intros i j.
  destruct (Nat.lt_ge_cases i 6) as [Hi|Hi]; destruct (Nat.lt_ge_cases j 6) as [Hj|Hj];
    try (apply entry_out_of_range; auto; fail).
  rewrite entry_corr_matrix by assumption.
  apply pearson_few; [exact Hsqrt|].
  pose proof (pairwise_complete_length (feature_column i df) (feature_column j df)) as Hl.
  unfold feature_column in Hl at 3. rewrite length_map in Hl. lia.
Qed.

(** Witness of X17: one parcel. *)
Lemma corr_matrix_small_table_witness :
  square_root Qsqrt /\
  (length [measured 1 100 10 10 10 1000] < 2)%nat /\
  forall i j, entry (corr_matrix Qsqrt [measured 1 100 10 10 10 1000]) i j = None.
Proof.
  assert (H : (length [measured 1 100 10 10 10 1000] < 2)%nat) by (simpl; lia).
  split; [exact Qsqrt_square_root|]. split; [exact H|].
  exact (corr_matrix_small_table Qsqrt Qsqrt_square_root _ H).
Defined.

(* ------------------------------------------------------------------ *)
(** ** The label of the order count *)

Lemma filter_rev {A} (p : A -> bool) (l : list A) : filter p (rev l) = rev (filter p l).
Proof.
  induction l as [|x l IH]; simpl; [reflexivity|].
  rewrite filter_app, IH. simpl. destruct (p x); simpl; [reflexivity|].
  now rewrite app_nil_r.
Qed.

(** The facts about [group3], by induction on a bound of the length: the
    commas can be dropped again, they sit at every fourth place and nowhere
    else, and the last character is not one of them. *)
Lemma group3_facts (n : nat) (l : list ascii) :
  (length l <= n)%nat -> Forall (fun c => no_comma c = true) l ->
  filter no_comma (group3 l) = l /\
  (forall i, (i < length (group3 l))%nat ->
     (nth i (group3 l) comma = comma <-> i mod 4 = 3)%nat) /\
  (l <> [] -> (length (group3 l) mod 4 <> 0)%nat).
Proof.
  revert l. induction n as [|n IH]; intros l Hlen Hd.
  { destruct l; [|simpl in Hlen; lia]. simpl. repeat split; try lia; congruence. }
  destruct l as [|a [|b [|c [|d rest]]]].
  - simpl. repeat split; try lia; congruence.
  - inversion Hd as [|? ? Ha _]; subst. simpl. rewrite Ha. split; [reflexivity|].
    split; [|intros _; simpl; lia].
    intros i Hi. assert (i = 0)%nat as -> by (simpl in Hi; lia). simpl.
    split; [|discriminate]. intros ->. discriminate Ha.
  - inversion Hd as [|? ? Ha Hd1]; subst. inversion Hd1 as [|? ? Hb _]; subst.
    simpl. rewrite Ha, Hb. split; [reflexivity|].
    split; [|intros _; simpl; lia].
    intros i Hi. simpl in Hi.
    destruct i as [|[|i]]; simpl; try lia;
      (split; [|discriminate]); intros ->; discriminate.
  - inversion Hd as [|? ? Ha Hd1]; subst. inversion Hd1 as [|? ? Hb Hd2]; subst.
    inversion Hd2 as [|? ? Hc _]; subst.
    simpl. rewrite Ha, Hb, Hc. split; [reflexivity|].
    split; [|intros _; simpl; lia].
    intros i Hi. simpl in Hi.
    destruct i as [|[|[|i]]]; simpl; try lia;
      (split; [|discriminate]); intros ->; discriminate.
  - inversion Hd as [|? ? Ha Hd1]; subst. inversion Hd1 as [|? ? Hb Hd2]; subst.
    inversion Hd2 as [|? ? Hc Hd3]; subst.
    destruct (IH (d :: rest)) as (IH1 & IH2 & IH3); [simpl in *; lia | exact Hd3 |].
    change (group3 (a :: b :: c :: d :: rest))
      with (a :: b :: c :: comma :: group3 (d :: rest)).
    set (g := group3 (d :: rest)) in *.
    split; [|split].
    + simpl. rewrite Ha, Hb, Hc. now rewrite IH1.
    + intros i Hi. simpl in Hi.
      destruct i as [|[|[|[|i]]]].
      * simpl. split; [intros ->; discriminate | discriminate].
      * simpl. split; [intros ->; discriminate | discriminate].
      * simpl. split; [intros ->; discriminate | discriminate].
      * simpl. split; reflexivity.
      * change (nth (S (S (S (S i)))) (a :: b :: c :: comma :: g) comma)
          with (nth i g comma).
        rewrite IH2 by lia.
        replace (S (S (S (S i)))) with (i + 1 * 4)%nat by lia.
        now rewrite Nat.Div0.mod_add.
    + intros _. simpl length.
      assert (Hne : d :: rest <> []) by discriminate.
      specialize (IH3 Hne).
      replace (S (S (S (S (length g))))) with (length g + 1 * 4)%nat by lia.
      now rewrite Nat.Div0.mod_add.
Qed.

Lemma digits_no_comma (d : Decimal.uint) :
  Forall (fun c => no_comma c = true)
         (list_ascii_of_string (DecimalString.NilEmpty.string_of_uint d)).
Proof. induction d; simpl; constructor; auto. Qed.

Lemma decimal_not_empty (n : nat) : decimal n <> [].
Proof.
  unfold decimal. intro E.
  assert (H : Nat.of_uint (Nat.to_uint n) = n) by apply DecimalNat.Unsigned.of_to.
  assert (Hs : DecimalString.NilEmpty.string_of_uint (Nat.to_uint n) = EmptyString).
  { rewrite <- (string_of_list_ascii_of_string (DecimalString.NilEmpty.string_of_uint _)).
    now rewrite E. }
  destruct (Nat.to_uint n) eqn:En; try discriminate Hs.
  pose proof (DecimalNat.Unsigned.to_of (Nat.to_uint n)) as Hn.
  rewrite En, H, En in Hn. discriminate Hn.
Qed.

(** X18.  The label of "Total Orders" is the count in decimal with a comma
    before every group of three digits counted from the right: read from
    the right, every fourth character and no other is a comma, the leftmost
    character is a digit, and with the commas dropped the label reads back
    as the count. *)
Theorem total_orders_label_spec (df : table) :
  read_thousands (total_orders_label df) = Some (total_orders df) /\
  (let r := rev (list_ascii_of_string (total_orders_label df)) in
   (forall i, (i < length r)%nat -> (nth i r comma = comma <-> i mod 4 = 3)%nat) /\
   (length r mod 4 <> 0)%nat).
Proof.
  unfold total_orders_label, format_thousands, read_thousands.
  set (n := total_orders df).
  assert (Hd : Forall (fun c => no_comma c = true) (rev (decimal n))).
  { apply Forall_rev. apply digits_no_comma. }
  destruct (group3_facts _ (rev (decimal n)) (Nat.le_refl _) Hd) as (H1 & H2 & H3).
  rewrite list_ascii_of_string_of_list_ascii. split.
  - rewrite filter_rev, H1, rev_involutive.
    unfold decimal. rewrite string_of_list_ascii_of_string.
    rewrite DecimalString.NilEmpty.usu. simpl.
    now rewrite DecimalNat.Unsigned.of_to.
  - cbv zeta. rewrite rev_involutive. split; [exact H2|].
    apply H3. intro E. apply (decimal_not_empty n).
    rewrite <- (rev_involutive (decimal n)), E. reflexivity.
Qed.

(* ------------------------------------------------------------------ *)
(** ** The order of the rows *)

Lemma Qsum_perm (l l' : list Q) : Permutation l l' -> Qsum l == Qsum l'.
Proof.
  induction 1 as [| x l l' Hp IH | x y l | l l' l'' H1 IH1 H2 IH2]; simpl.
  - reflexivity.
  - now rewrite IH.
  - ring.
  - now rewrite IH1.
Qed.

Lemma mean_of_perm (l l' : list Q) : Permutation l l' -> mean_of l =?= mean_of l'.
Proof.
  intro Hp. pose proof (Qsum_perm _ _ Hp) as Hs.
  pose proof (Permutation_length Hp) as Hl.
  destruct l as [|a l], l' as [|b l']; try discriminate Hl; [exact I|].
  simpl. unfold Qlen. rewrite Hl. simpl in Hs. now rewrite Hs.
Qed.

Lemma filter_perm {A} (p : A -> bool) (l l' : list A) :
  Permutation l l' -> Permutation (filter p l) (filter p l').
Proof.
  induction 1 as [| x l l' Hp IH | x y l | l l' l'' H1 IH1 H2 IH2]; simpl.
  - constructor.
  - destruct (p x); [now constructor | exact IH].
  - destruct (p x), (p y); try reflexivity. apply perm_swap.
  - now transitivity (filter p l').
Qed.

Lemma dropna_perm {A} (l l' : list (option A)) :
  Permutation l l' -> Permutation (dropna l) (dropna l').
Proof.
  induction 1 as [| x l l' Hp IH | x y l | l l' l'' H1 IH1 H2 IH2]; simpl.
  - constructor.
  - destruct x; [now constructor | exact IH].
  - destruct x, y; try reflexivity. apply perm_swap.
  - now transitivity (dropna l').
Qed.

Lemma delays_perm (rows rows' : table) :
  Permutation rows rows' -> Permutation (delays rows) (delays rows').
Proof. intro Hp. apply dropna_perm, Permutation_map, Hp. Qed.

Lemma Forall2_map_same {A B} (R : B -> B -> Prop) (f g : A -> B) (l : list A) :
  (forall x, In x l -> R (f x) (g x)) -> Forall2 R (map f l) (map g l).
Proof.
  induction l as [|x l IH]; intro Hall; simpl; constructor.
  - apply Hall. now left.
  - apply IH. intros y Hy. apply Hall. now right.
Qed.

Section RowOrder.
Context {K : Type} `{GroupKeyLaws K}.

(** Two strictly ascending lists with the same members are the same list. *)
Lemma sorted_unique_eq (l1 l2 : list K) :
  StronglySorted key_lt l1 -> StronglySorted key_lt l2 ->
  (forall k, In k l1 <-> In k l2) -> l1 = l2.
Proof.
  intro H1. revert l2. induction H1 as [|a t1 Hs1 IH Ha]; intros l2 H2 Hmem.
  - destruct l2 as [|b t2]; [reflexivity|].
    exfalso. apply (Hmem b). now left.
  - destruct H2 as [|b t2 Hs2 Hb].
    + exfalso. apply (Hmem a). now left.
    + rewrite Forall_forall in Ha, Hb.
      assert (Eab : a = b).
      { destruct (proj1 (Hmem a) (or_introl eq_refl)) as [E|Hin]; [now symmetry|].
        destruct (proj2 (Hmem b) (or_introl eq_refl)) as [E|Hin']; [exact E|].
        exfalso. apply (key_lt_irrefl a).
        exact (key_compare_trans _ _ _ (Ha b Hin') (Hb a Hin)). }
      subst b. f_equal. apply IH; [exact Hs2|].
      intro k. split; intro Hk.
      * destruct (proj1 (Hmem k) (or_intror Hk)) as [E|Hin]; [|exact Hin].
        subst k. exfalso. exact (key_lt_irrefl a (Ha a Hk)).
      * destruct (proj2 (Hmem k) (or_intror Hk)) as [E|Hin]; [|exact Hin].
        subst k. exfalso. exact (key_lt_irrefl a (Hb a Hk)).
Qed.

Lemma group_keys_perm (col col' : list (option K)) :
  Permutation col col' -> group_keys col = group_keys col'.
Proof.
  intro Hp. apply sorted_unique_eq; try apply group_keys_sorted.
  intro k. rewrite !group_keys_In. split; apply Permutation_in;
    [exact Hp | now apply Permutation_sym].
Qed.

Lemma rows_with_mean_perm (key : row -> option K) (k : K) (df df' : table) :
  Permutation df df' ->
  mean_of (delays (rows_with key k df)) =?= mean_of (delays (rows_with key k df')).
Proof.
  intro Hp. apply mean_of_perm, delays_perm. unfold rows_with. now apply filter_perm.
Qed.

Lemma group_mean_perm (key : row -> option K) (df df' : table) :
  Permutation df df' -> same_series (group_mean key df) (group_mean key df').
Proof.
  intro Hp. rewrite !group_mean_eq.
  rewrite <- (group_keys_perm _ _ (Permutation_map key Hp)).
  apply Forall2_map_same. intros k _. simpl. split; [reflexivity|].
  now apply rows_with_mean_perm.
Qed.

End RowOrder.

(** X19.  Rounding aside, what the dashboard shows does not depend on the
    order of the rows: the order count, the on-time percentage, the average
    delay, and label by label the bars by state, the points of the monthly
    trend and the weekday profile are the same for a table and any
    rearrangement of its rows. *)
Theorem views_ignore_row_order (df df' : table) (Hperm : Permutation df df') :
  total_orders df = total_orders df' /\
  on_time_percentage df =?= on_time_percentage df' /\
  avg_delay df =?= avg_delay df' /\
  same_series (state_delay df) (state_delay df') /\
  same_series (monthly_trend df) (monthly_trend df') /\
  same_series (weekday_perf df) (weekday_perf df').
Proof.
  split.
  { unfold total_orders. apply Permutation_length, NoDup_Permutation;
      try apply unique_NoDup.
    intro c. rewrite !unique_In. split; apply Permutation_in;
      [|apply Permutation_sym]; apply Permutation_map, Hperm. }
  split.
  { unfold on_time_percentage, bool_mean.
    assert (Hm : Permutation
              (map (fun b : bool => if b then 1 else 0)
                   (map (fun r => cell_eqb (delivery_status r) "On Time") df))
              (map (fun b : bool => if b then 1 else 0)
                   (map (fun r => cell_eqb (delivery_status r) "On Time") df')))
      by (do 2 apply Permutation_map; exact Hperm).
    apply mean_of_perm in Hm.
    destruct (mean_of _), (mean_of _); simpl in *; try contradiction; [|exact I].
    now rewrite Hm. }
  split.
  { rewrite !avg_delay_eq. apply mean_of_perm, delays_perm, filter_perm, Hperm. }
  split; [now apply group_mean_perm|].
  split.
  - unfold monthly_trend.
    pose proof (group_mean_perm (fun r => to_period_M (order_purchase_timestamp r))
                  df df' Hperm) as Hs.
    unfold same_series in *. induction Hs as [|a b s s' [E1 E2] Hs IH]; simpl;
      constructor; [|exact IH].
    simpl. split; [now rewrite E1 | exact E2].
  - unfold weekday_perf. rewrite !reindex_group_mean.
    apply Forall2_map_same. intros d _. simpl. split; [reflexivity|].
    now apply rows_with_mean_perm.
Qed.

(** Witness of X19: the sample orders and the same rows last to first. *)
Lemma views_ignore_row_order_witness :
  Permutation sample_orders (rev sample_orders) /\
  total_orders sample_orders = total_orders (rev sample_orders) /\
  avg_delay sample_orders =?= avg_delay (rev sample_orders) /\
  same_series (state_delay sample_orders) (state_delay (rev sample_orders)).
Proof.
  assert (H : Permutation sample_orders (rev sample_orders)) by apply Permutation_rev.
  split; [exact H|].
  pose proof (views_ignore_row_order sample_orders (rev sample_orders) H)
    as (H1 & _ & H3 & H4 & _).
  split; [exact H1|]. split; [exact H3 | exact H4].
Defined.

(* ------------------------------------------------------------------ *)
(** ** The metric and the pie *)

(** X20.  The on-time percentage agrees with the pie of the status
    distribution on the numerator only: when the pie has a slice "On Time"
    of [n] rows, the percentage is [n] over the number of all rows, those
    without a status included, times 100; when the pie has no such slice
    and the table has rows, it is 0. *)
Theorem on_time_percentage_and_pie (sort : count_sorter)
        (Hsort : count_sorting_routine sort) (df : table) :
  (forall n, In ("On Time"%string, n) (status_dist sort df) ->
     on_time_percentage df =?= Some (inject_Z (Z.of_nat n) / Qlen df * 100)) /\
  ((forall n, ~ In ("On Time"%string, n) (status_dist sort df)) -> df <> [] ->
   on_time_percentage df =?= Some 0).
Proof.
  assert (Hv : forall r l, on_time_percentage (r :: l) =?=
             Some (Qlen (filter is_on_time (r :: l)) / Qlen (r :: l) * 100)).
  { intros r l. unfold on_time_percentage, bool_mean.
    pose proof (Qsum_indicator is_on_time (r :: l)) as Hs. unfold is_on_time in *.
    set (col := map _ (map _ (r :: l))) in *.
    assert (Hl : Qlen col = Qlen (r :: l)) by (unfold col; now rewrite !Qlen_map).
    destruct col as [|b col'] eqn:Ec; [discriminate|].
    simpl. rewrite Hs, Hl. reflexivity. }
  pose proof (count_sorted_perm sort
                (map (fun s => (s, occurrences (Some s) (map delivery_status df)))
                     (dropna (unique (map delivery_status df)))) Hsort) as Hp.
  split.
  - intros n Hin. unfold status_dist, value_counts in Hin.
    apply (Permutation_in _ Hp) in Hin. apply in_map_iff in Hin.
    destruct Hin as (s & E & Hs). injection E as -> <-.
    destruct df as [|r l]; [contradiction|].
    rewrite Hv, occurrences_status. reflexivity.
  - intros Hno Hne. destruct df as [|r l]; [congruence|].
    rewrite Hv.
    assert (E : filter is_on_time (r :: l) = []).
    { destruct (filter is_on_time (r :: l)) as [|x t] eqn:Ef; [reflexivity|].
      exfalso.
      assert (Hx : In x (filter is_on_time (r :: l))) by (rewrite Ef; now left).
      apply filter_In in Hx. destruct Hx as [Hx Ho].
      apply cell_eqb_spec in Ho.
      apply (Hno (occurrences (Some "On Time"%string) (map delivery_status (r :: l)))).
      unfold status_dist, value_counts.
      apply (Permutation_in _ (Permutation_sym Hp)).
      apply in_map_iff. exists "On Time"%string. split; [reflexivity|].
      apply dropna_In, unique_In, in_map_iff. eauto. }
    rewrite E. simpl. unfold Qlen at 1. simpl.
    unfold Qdiv. rewrite !Qmult_0_l. reflexivity.
Qed.

(** Witness of X20: the sample orders, one row in four on time. *)
Lemma on_time_percentage_and_pie_witness :
  count_sorting_routine insertion_sort_counts /\
  In ("On Time"%string, 1%nat) (status_dist insertion_sort_counts sample_orders) /\
  on_time_percentage sample_orders =?= Some 25.
Proof.
  split; [exact insertion_sort_counts_routine|].
  assert (Hin : In ("On Time"%string, 1%nat)
                   (status_dist insertion_sort_counts sample_orders))
    by (vm_compute; right; now left).
  split; [exact Hin|].
  pose proof (proj1 (on_time_percentage_and_pie insertion_sort_counts
                       insertion_sort_counts_routine sample_orders) 1%nat Hin) as H.
  etransitivity; [exact H|]. vm_compute. reflexivity.
Defined.
